(** * LinkedIn Queens solver: a shallow embedding of [solver.py] and
    [visuals.py], and the properties of its specification.

    The Python functions are embedded as executable Rocq functions.
    - [str] values are Rocq [string]s, a character being a code point below
      256, with Python's whitespace and line boundaries in that range;
    - Python lists are [list]s, the [dict] built by [get_puzzle_regions] is an
      association list in insertion order (Python dicts keep that order);
    - exceptions and the order of external calls are threaded through a small
      error-and-trace monad [M];
    - the functions that neither draw nor print are embedded: the parser,
      the writer of the solution file, the placing of the queens, the layout
      and the colour look-up of the drawing;
    - the constraint solver [pychoco] is an external library: the model the
      code posts is embedded as data ([Model]), with its semantics, and the
      solver is the interface [ChocoSolver]: the sequence of solutions that
      successive [solver.solve()] calls find. *)

From Stdlib Require Import ZArith Lia String Ascii.
From stdpp Require Import base decidable option list sets gmap strings pretty.

Open Scope string_scope.
Open Scope list_scope.
Open Scope nat_scope.

(** ** Python [str] methods *)

Module PyStr.

(** [c.isspace()], the whitespace of [strip] and [split], for a character
    below 256: tab, LF, VT, FF, CR (9 to 13), FS, GS, RS, US and the space
    (28 to 32), the next-line character (133) and the no-break space
    (160). *)
Definition isspace (c : ascii) : bool :=
  let k := nat_of_ascii c in
  ((9 <=? k) && (k <=? 13)) || ((28 <=? k) && (k <=? 32)) ||
  (k =? 133) || (k =? 160).

(** The line boundaries of [str.splitlines] below 256: LF, VT, FF, CR
    (10 to 13), FS, GS, RS (28 to 30) and the next-line character (133);
    CR LF is taken as one boundary. *)
Definition islinebreak (c : ascii) : bool :=
  let k := nat_of_ascii c in
  ((10 <=? k) && (k <=? 13)) || ((28 <=? k) && (k <=? 30)) || (k =? 133).

Definition CR : ascii := ascii_of_nat 13.
Definition LF : ascii := ascii_of_nat 10.

Definition snoc (s : string) (c : ascii) : string :=
  String.append s (String c "").

Fixpoint rev (s : string) : string :=
  match s with
  | "" => ""
  | String c rest => snoc (rev rest) c
  end.

Fixpoint lstrip (s : string) : string :=
  match s with
  | "" => ""
  | String c rest => if isspace c then lstrip rest else s
  end.

Definition rstrip (s : string) : string := rev (lstrip (rev s)).

(** [s.strip()] *)
Definition strip (s : string) : string := rstrip (lstrip s).

(** [s.splitlines()]: [cur] is the line being read.  A boundary closes the
    line (also an empty one); the end of the text closes it only when it is
    not empty. *)
Fixpoint splitlines_from (cur s : string) : list string :=
  match s with
  | "" => if decide (cur = "") then [] else [cur]
  | String c rest =>
      if islinebreak c then
        match rest with
        | String c' rest' =>
            if decide (c = CR /\ c' = LF)
            then cur :: splitlines_from "" rest'
            else cur :: splitlines_from "" rest
        | "" => cur :: splitlines_from "" rest
        end
      else splitlines_from (snoc cur c) rest
  end.

Definition splitlines (s : string) : list string := splitlines_from "" s.

(** [s.split(sep)] for a one-character separator: every occurrence splits,
    empty fields are kept. *)
Fixpoint split_on_from (sep : ascii) (cur s : string) : list string :=
  match s with
  | "" => [cur]
  | String c rest =>
      if decide (c = sep) then cur :: split_on_from sep "" rest
      else split_on_from sep (snoc cur c) rest
  end.

Definition split_on (sep : ascii) (s : string) : list string :=
  split_on_from sep "" s.

(** [s.split()]: runs of whitespace separate, no empty field. *)
Fixpoint split_from (cur s : string) : list string :=
  match s with
  | "" => if decide (cur = "") then [] else [cur]
  | String c rest =>
      if isspace c then
        (if decide (cur = "") then split_from "" rest
         else cur :: split_from "" rest)
      else split_from (snoc cur c) rest
  end.

Definition split (s : string) : list string := split_from "" s.

(** [c in s] *)
Fixpoint contains (c : ascii) (s : string) : bool :=
  match s with
  | "" => false
  | String c' rest => if decide (c' = c) then true else contains c rest
  end.


(** [s.replace(old, "")] for a one-character [old]. *)
Fixpoint remove (old : ascii) (s : string) : string :=
  match s with
  | "" => ""
  | String c rest =>
      if decide (c = old) then remove old rest else String c (remove old rest)
  end.

End PyStr.

(** ** Values, exceptions and the effect monad *)

(** A region label: the parser produces [str] labels, a matrix passed by the
    caller may hold integers as well. *)
Inductive label : Type :=
  | LStr (s : string)
  | LInt (z : Z).

#[global] Instance label_eq_dec : EqDecision label.
Proof. solve_decision. Defined.

(** [str(cell)] *)
Definition str (cell : label) : string :=
  match cell with
  | LStr s => s
  | LInt z => pretty z
  end.

Abbreviation matrix := (list (list label)).

Inductive exn : Type :=
  | ValueError (msg : string)
  | FileNotFoundError (path : string)
  | IndexError
  | AssertionError (msg : string).

(** The exceptions of the drawing code, beside those of [exn]. *)
Inductive error : Type :=
  | Exn (e : exn)
  | ZeroDivisionError
  | KeyError (msg : string).

(** The external calls [solve_puzzle] makes, in order. *)
Inductive event : Type :=
  | EvReadText (path : string)
  | EvSolve (found : bool).

#[global] Instance event_eq_dec : EqDecision event.
Proof. solve_decision. Defined.

Abbreviation trace := (list event).

(** How a call ends.  [OutOfFuel] is not a Python outcome: it is the loop
    budget of the embedding running out. *)
Inductive outcome (A : Type) : Type :=
  | Returned (a : A)
  | Raised (e : exn)
  | OutOfFuel.
Arguments Returned {A} a.
Arguments Raised {A} e.
Arguments OutOfFuel {A}.

Definition M (A : Type) : Type := trace -> outcome A * trace.

Definition ret {A} (a : A) : M A := fun t => (Returned a, t).
Definition raise {A} (e : exn) : M A := fun t => (Raised e, t).
Definition emit (e : event) : M unit := fun t => (Returned tt, t ++ [e]).
Definition bind {A B} (k : A -> M B) (m : M A) : M B :=
  fun t =>
    match m t with
    | (Returned a, t') => k a t'
    | (Raised e, t') => (Raised e, t')
    | (OutOfFuel, t') => (OutOfFuel, t')
    end.

#[global] Instance M_ret : MRet M := @ret.
#[global] Instance M_bind : MBind M := @bind.

(** [[f(x) for x in xs]] where [f] may raise. *)
Fixpoint mapM {A B} (f : A -> M B) (xs : list A) : M (list B) :=
  match xs with
  | [] => ret []
  | x :: rest => y ← f x; ys ← mapM f rest; ret (y :: ys)
  end.

(** ** [visuals.py] *)

Module visuals.

Definition comma : ascii := ascii_of_nat 44.

(** The body of the loop of [parse_board_from_txt] for one line that is not
    blank: the fields of the line. *)
Definition parse_line (line : string) : list label :=
  let parts :=
    if PyStr.contains comma line
    then map PyStr.strip (PyStr.split_on comma line)
    else PyStr.split line in
  map LStr (filter (fun p => p <> "") parts).

(** The rows collected by the loop over [read_text().splitlines()]. *)
Fixpoint parse_rows (lines : list string) : matrix :=
  match lines with
  | [] => []
  | line :: rest =>
      let line := PyStr.strip line in
      if decide (line = "") then parse_rows rest
      else parse_line line :: parse_rows rest
  end.

(** [len(set(len(r) for r in rows))] *)
Definition distinct_row_lengths (rows : matrix) : nat :=
  size (list_to_set (length <$> rows) : gset nat).

Definition inconsistent : string :=
  "Inconsistent row lengths in board representation.".

(** [fs] gives the text [Path.read_text] returns for a path, if the file
    exists. *)
Definition parse_board_from_txt (fs : string -> option string)
    (txt_path : string) : M matrix :=
  emit (EvReadText txt_path);;
  match fs txt_path with
  | None => raise (FileNotFoundError txt_path)
  | Some text =>
      let rows := parse_rows (PyStr.splitlines text) in
      if decide (distinct_row_lengths rows <> 1)
      then raise (ValueError inconsistent)
      else ret rows
  end.

(** The sizes of the drawing ([//] is the division that rounds down). *)
Definition CANVAS : Z := 500.
Definition OUTER_W : Z := Z.max 8 (CANVAS / 60).
Definition GRID_W : Z := Z.max 2 (OUTER_W / 2).

(** [range(n)] *)
Definition range (n : Z) : list Z := seqZ 0 n.

(** [x[-1]] of a list that is not empty. *)
Definition last_item (x : list Z) : Z := default 0%Z (last x).

(** [[base + (1 if c < rem else 0) for c in range(n)]] *)
Definition cell_sizes (base rem n : Z) : list Z :=
  (fun c => (base + (if decide (c < rem) then 1 else 0))%Z) <$> range n.

(** The loop that builds the edges [x] (or [y]) from the sizes. *)
Definition edges (outer grid n : Z) (sizes : list Z) : list Z :=
  foldl (fun x c =>
           let x := x ++ [(last_item x + default 0 (sizes !! Z.to_nat c))%Z] in
           if decide (c < n - 1)%Z
           then <[length x - 1 := (last_item x + grid)%Z]> x
           else x)
        [outer] (range n).

Definition too_thick : string := "Grid/border too thick for canvas size.".

(** [compute_layout]; the defaults of [size], [outer] and [grid] are
    [CANVAS], [OUTER_W] and [GRID_W]. *)
Definition compute_layout (nr nc size outer grid : Z)
    : error + (list Z * list Z) :=
  let total_grid_x := ((nc - 1) * grid)%Z in
  let total_grid_y := ((nr - 1) * grid)%Z in
  let usable_w := (size - 2 * outer - total_grid_x)%Z in
  let usable_h := (size - 2 * outer - total_grid_y)%Z in
  if decide (usable_w <= 0 \/ usable_h <= 0)%Z then inl (Exn (ValueError too_thick))
  else if decide (nc = 0%Z) then inl ZeroDivisionError
  else if decide (nr = 0%Z) then inl ZeroDivisionError
  else
    let col_widths := cell_sizes (usable_w / nc) (usable_w `mod` nc) nc in
    let row_heights := cell_sizes (usable_h / nr) (usable_h `mod` nr) nr in
    inr (edges outer grid nc col_widths, edges outer grid nr row_heights).

Definition PALETTE : gmap string string :=
  list_to_map
    [("0", "#E84C49"); ("1", "#F5A23D"); ("2", "#F8E64C"); ("3", "#7CCB5F");
     ("4", "#4DA3FF"); ("5", "#A364E5"); ("6", "#D95BA5"); ("7", "#CFCFCF");
     ("8", "#B18A5F"); ("9", "#32D3C8"); ("10", "#7BD0C4"); ("11", "#FF6E3A");
     ("12", "#FCE96A"); ("13", "#54E346"); ("14", "#1FA774"); ("15", "#3F57FF");
     ("16", "#B95FFF"); ("17", "#FF7BDD"); ("18", "#8C8C8C"); ("19", "#D6C18F");
     ("20", "#00F0FF")].

Definition upper_q : ascii := ascii_of_nat 81.
Definition lower_q : ascii := ascii_of_nat 113.

(** The key under which [generate_board_visuals] looks a cell up: the
    value as a string, without the letters Q and q when it holds one,
    stripped. *)
Definition palette_key (raw_val : label) : string :=
  let s := str raw_val in
  let s := if PyStr.contains upper_q s || PyStr.contains lower_q s
           then PyStr.remove lower_q (PyStr.remove upper_q s) else s in
  PyStr.strip s.

(** The colour [generate_board_visuals] finds in [PALETTE] for the cell
    [(r, c)], or the [KeyError] it raises. *)
Definition color_hex (r c : nat) (raw_val : label) : error + string :=
  match PALETTE !! palette_key raw_val with
  | Some hex => inr hex
  | None =>
      inl (KeyError ("Cell (" +:+ pretty r +:+ "," +:+ pretty c +:+ ") value '"
                     +:+ str raw_val +:+ "' not found in PALETTE."))
  end.

End visuals.

(** ** The constraint solver used by [solver.py] *)

Module choco.

(** The variables of the model [solve_puzzle] builds are [queen_col[i]],
    named by [i], and the Boolean [cell_has_queen[r][c]], named by [(r, c)]:
    every one of them is reified with [queen_col[r] = c], so a solution of
    the model is given by the values of [queen_col] alone. *)
Abbreviation BoolVar := (nat * nat)%type.

Inductive constraint : Type :=
  | AllDifferent (vars : list nat)               (* all_different(vars) *)
  | Distance (x y : nat) (k : Z)                 (* distance(x, y, ">", k) *)
  | SumEq (bools : list BoolVar) (k : nat).      (* sum(bools, "=", k) *)

(** [intvars(num_vars, lb, ub)] and the constraints posted, in order.  The
    bounds are natural numbers: [solve_puzzle] asks for [0 .. n - 1], and
    for [n = 0] there is no variable. *)
Record Model : Type := mkModel {
  num_vars : nat;
  lb : nat;
  ub : nat;
  posted : list constraint
}.

Definition value (a : list nat) (x : nat) : nat := default 0 (a !! x).

Definition bool_value (a : list nat) (b : BoolVar) : nat :=
  if decide (a !! b.1 = Some b.2) then 1 else 0.

Definition holds (a : list nat) (c : constraint) : Prop :=
  match c with
  | AllDifferent vars => NoDup (value a <$> vars)
  | Distance x y k => (k < Z.abs (Z.of_nat (value a x) - Z.of_nat (value a y)))%Z
  | SumEq bools k => sum_list_with (bool_value a) bools = k
  end.

#[global] Instance holds_dec a c : Decision (holds a c).
Proof. destruct c; simpl; apply _. Defined.

(** [a] gives every variable a value of its domain and satisfies every
    posted constraint. *)
Definition satisfies (m : Model) (a : list nat) : Prop :=
  length a = num_vars m /\
  Forall (fun v => lb m <= v <= ub m) a /\
  Forall (holds a) (posted m).

#[global] Instance satisfies_dec m a : Decision (satisfies m a).
Proof. unfold satisfies. apply _. Defined.

(** The solver, by its contract: successive calls of [solver.solve()] find
    the solutions of the model one after the other, each one once, in an
    order [solutions] that is the solver's own (the code sets no search
    strategy), and then answer [False]. *)
Class ChocoSolver : Type := {
  solutions : Model -> list (list nat);
  solutions_NoDup : forall m, NoDup (solutions m);
  solutions_spec : forall m a, a ∈ solutions m <-> satisfies m a
}.

(** The state of a [Solver] object: the solutions still to be found and the
    one the variables are instantiated to, if any. *)
Record Solver : Type := mkSolver {
  pending : list (list nat);
  current : option (list nat)
}.

Definition get_solver `{ChocoSolver} (m : Model) : Solver :=
  mkSolver (solutions m) None.

(** [solver.solve()] *)
Definition solve (s : Solver) : M (bool * Solver) :=
  match pending s with
  | a :: rest => emit (EvSolve true);; ret (true, mkSolver rest (Some a))
  | [] => emit (EvSolve false);; ret (false, mkSolver [] None)
  end.

Definition not_instantiated : string := "variable is not instantiated".

(** [queen_col[x].get_value()]: pychoco asserts that the variable is
    instantiated, which it is after a call of [solve] that found a solution
    and is not after one that found none. *)
Definition get_value (s : Solver) (x : nat) : M nat :=
  match current s ≫= (fun a => a !! x) with
  | Some v => ret v
  | None => raise (AssertionError not_instantiated)
  end.

End choco.

(** ** [solver.py] *)

Module solver.

Import choco.

Inductive puzzle_arg : Type :=
  | PuzzleStr (s : string)
  | PuzzleMatrix (m : matrix).

(** [get_puzzle_size] *)
Definition get_puzzle_size (puzzle : puzzle_arg) : nat :=
  match puzzle with
  | PuzzleStr s =>
      length (filter (fun ln => PyStr.strip ln <> "")
                     (PyStr.splitlines (PyStr.strip s)))
  | PuzzleMatrix m => length m
  end.

(** [enumerate(xs)] *)
Definition enumerate {A} (xs : list A) : list (nat * A) :=
  zip (seq 0 (length xs)) xs.

Abbreviation cell := (nat * nat)%type.

(** The [dict] of regions, in insertion order. *)
Abbreviation regions_dict := (list (label * list cell)).

(** [regions[val]], when [val in regions]. *)
Fixpoint dict_get (regions : regions_dict) (val : label) : option (list cell) :=
  match regions with
  | [] => None
  | (k, cells) :: rest =>
      if decide (k = val) then Some cells else dict_get rest val
  end.

(** [if val not in regions: regions[val] = []] and then
    [regions[val].append(rc)]. *)
Fixpoint regions_add (val : label) (rc : cell) (regions : regions_dict)
    : regions_dict :=
  match regions with
  | [] => [(val, [rc])]
  | (k, cells) :: rest =>
      if decide (k = val) then (k, cells ++ [rc]) :: rest
      else (k, cells) :: regions_add val rc rest
  end.

(** [get_puzzle_regions] *)
Definition get_puzzle_regions (puzzle_matrix : matrix) : regions_dict :=
  foldl (fun regions '(r, row) =>
           foldl (fun regions '(c, val) => regions_add val (r, c) regions)
                 regions (enumerate row))
        [] (enumerate puzzle_matrix).

(** [regions.values()] *)
Definition values (regions : regions_dict) : list (list cell) :=
  snd <$> regions.

(** The [dict] returned by [solve_puzzle]. *)
Record Result : Type := mkResult {
  number_of_solutions : nat;
  initial_board : matrix;
  queens : list (nat * nat)
}.

(** [xs[i]] for an index that is not negative. *)
Definition index {A} (xs : list A) (i : nat) : M A :=
  match xs !! i with
  | Some x => ret x
  | None => raise IndexError
  end.

(** [[[model.boolvar() for _ in range(n)] for _ in range(n)]], each
    variable with the reification posted for it. *)
Definition cell_has_queen (n : nat) : list (list BoolVar) :=
  (fun r => (fun c => (r, c)) <$> seq 0 n) <$> seq 0 n.

(** [model.sum([cell_has_queen[r][c] for r, c in region_cells], "=", 1)] *)
Definition region_constraint (n : nat) (region_cells : list cell)
    : M constraint :=
  bools ← mapM (fun '(r, c) => row ← index (cell_has_queen n) r; index row c)
               region_cells;
  ret (SumEq bools 1).

(** [model.all_different(queen_col)] *)
Definition rule1 (n : nat) : constraint := AllDifferent (seq 0 n).

(** [model.distance(queen_col[i], queen_col[i+1], ">", 1)] for [i] in
    [range(n - 1)]. *)
Definition rule2 (n : nat) : list constraint :=
  (fun i => Distance i (i + 1) 1) <$> seq 0 (n - 1).

(** The loop [while solver.solve(): count += 1]. *)
Fixpoint count_solutions (fuel : nat) (s : Solver) (count : nat) : M nat :=
  match fuel with
  | 0 => fun t => (OutOfFuel, t)
  | S fuel =>
      '(found, s) ← solve s;
      if found : bool then count_solutions fuel s (count + 1) else ret count
  end.

Definition missing_argument : string :=
  "Either puzzle_text_path or puzzle_matrix must be provided.".

(** [solve_puzzle]; [fuel] bounds the iterations of the [while] loop. *)
Definition solve_puzzle `{ChocoSolver} (fs : string -> option string)
    (fuel : nat) (puzzle_text_path : option string)
    (puzzle_matrix : option matrix) : M Result :=
  puzzle ← match puzzle_text_path, puzzle_matrix with
           | None, None => raise (ValueError missing_argument)
           | _, Some m => ret m
           | Some path, None => visuals.parse_board_from_txt fs path
           end;
  let n := get_puzzle_size (PuzzleMatrix puzzle) in
  let regions := get_puzzle_regions puzzle in
  (* 1) only one queen per column and per line;
     2) no queens at cell distance 1 from each other;
     3) each region has exactly one queen *)
  rule3 ← mapM (region_constraint n) (values regions);
  let model := mkModel n 0 (n - 1) (rule1 n :: rule2 n ++ rule3) in
  let solver := get_solver model in
  (* first solution *)
  '(_, solver) ← solve solver;
  first_solution ← mapM (fun r => v ← get_value solver r; ret (r, v))
                        (seq 0 n);
  (* count other solutions *)
  count ← count_solutions fuel solver 1;
  ret (mkResult count puzzle first_solution).



(** [board_rows[r][c] = "Q" + str(board_rows[r][c])] *)
Definition mark_queen (board_rows : matrix) (rc : cell) : M matrix :=
  row ← index board_rows rc.1;
  old ← index row rc.2;
  ret (<[rc.1 := <[rc.2 := LStr ("Q" +:+ str old)]> row]> board_rows).

(** The first statements of [save_and_display_solution]: the copy of the
    board with the queens placed on it. *)
Fixpoint place_queens (board_rows : matrix) (queens : list cell) : M matrix :=
  match queens with
  | [] => ret board_rows
  | rc :: rest => board_rows ← mark_queen board_rows rc; place_queens board_rows rest
  end.

End solver.

Import PyStr visuals choco solver.

(** * Definitions used to state and prove the properties *)

(** ** The search space *)

(** Every list of [n] values of [dom], in lexicographic order. *)
Fixpoint candidates (n : nat) (dom : list nat) : list (list nat) :=
  match n with
  | 0 => [[]]
  | S k => c ← dom; (fun a => c :: a) <$> candidates k dom
  end.

Definition domain (m : Model) : list nat := seq (lb m) (S (ub m) - lb m).

(** Generate and test, smallest value first, first variable first. *)
Definition lex_solutions (m : Model) : list (list nat) :=
  filter (satisfies m) (candidates (num_vars m) (domain m)).

(** ** The rules of the puzzle, as the specification words them *)

(** A valid board: a square grid of labels with at least one row. *)
Definition valid_board (m : matrix) : Prop :=
  0 < length m /\ Forall (fun row => length row = length m) m.

#[global] Instance valid_board_dec m : Decision (valid_board m).
Proof. unfold valid_board. apply _. Defined.

(** The label of a cell of the grid. *)
Definition label_at (m : matrix) (rc : cell) : option label :=
  m !! rc.1 ≫= (fun row => row !! rc.2).

(** The cells of the grid, row by row. *)
Definition all_cells (m : matrix) : list cell :=
  '(r, row) ← enumerate m; (fun c => (r, c)) <$> seq 0 (length row).

(** The labels of the grid. *)
Definition labels (m : matrix) : list label := mjoin m.

(** The markers of an assignment: row [r] holds one at column [cols[r]]. *)
Definition markers (cols : list nat) : list cell := enumerate cols.

(** One marker per row of the board and per column. *)
Definition columns_distinct (n : nat) (cols : list nat) : Prop :=
  length cols = n /\ Forall (fun c => c < n) cols /\ NoDup cols.

(** Consecutive rows: [|col[r] - col[r+1]| > 1]. *)
Definition consecutive_rows_apart (cols : list nat) : Prop :=
  forall r c1 c2, cols !! r = Some c1 -> cols !! (S r) = Some c2 ->
    (1 < Z.abs (Z.of_nat c1 - Z.of_nat c2))%Z.

(** Each region label has exactly one marker. *)
Definition one_marker_per_region (m : matrix) (cols : list nat) : Prop :=
  forall k, k ∈ labels m ->
    length (filter (fun rc => label_at m rc = Some k) (markers cols)) = 1.

Definition is_solution (m : matrix) (cols : list nat) : Prop :=
  columns_distinct (length m) cols /\
  consecutive_rows_apart cols /\
  one_marker_per_region m cols.

#[global] Instance consecutive_rows_apart_dec cols :
  Decision (consecutive_rows_apart cols).
Proof.
  refine (cast_if (decide (Forall (fun r =>
            match cols !! r, cols !! (S r) with
            | Some c1, Some c2 => (1 < Z.abs (Z.of_nat c1 - Z.of_nat c2))%Z
            | _, _ => True
            end) (seq 0 (length cols))))).
  - apply Forall_dec. intros r.
    destruct (cols !! r); [destruct (cols !! S r)|]; apply _.
  - rename select (Forall _ _) into Hall.
    intros r c1 c2 H1 H2. rewrite Forall_forall in Hall.
    specialize (Hall r). rewrite H1, H2 in Hall. apply Hall.
    apply elem_of_seq. apply lookup_lt_Some in H1. lia.
  - rename select (¬ Forall _ _) into Hnot.
    intros H. apply Hnot. apply Forall_forall. intros r _.
    destruct (cols !! r) as [c1|] eqn:H1; [|done].
    destruct (cols !! S r) as [c2|] eqn:H2; [|done]. by eapply H.
Defined.

#[global] Instance one_marker_per_region_dec m cols :
  Decision (one_marker_per_region m cols).
Proof.
  refine (cast_if (decide (Forall (fun k =>
            length (filter (fun rc => label_at m rc = Some k) (markers cols)) = 1)
            (labels m)))).
  - rename select (Forall _ _) into Hall.
    intros k Hk. rewrite Forall_forall in Hall. by apply Hall.
  - rename select (¬ Forall _ _) into Hnot.
    intros H. apply Hnot. apply Forall_forall. intros k Hk. by apply H.
Defined.

#[global] Instance is_solution_dec m cols : Decision (is_solution m cols).
Proof. unfold is_solution, columns_distinct. apply _. Defined.

(** The assignments of the search space ([n] rows, [n] columns each) that
    satisfy the three rules. *)
Definition all_assignments (m : matrix) : list (list nat) :=
  filter (is_solution m) (candidates (length m) (seq 0 (length m))).

(** ** [get_puzzle_regions] and [solve_puzzle] in steps *)

(** The grid read cell by cell, as the two loops of [get_puzzle_regions]
    read it. *)
Definition labelled_cells (m : matrix) : list (label * cell) :=
  '(r, row) ← enumerate m; (fun '(c, val) => (val, (r, c))) <$> enumerate row.

(** The two loops, over the cells read. *)
Definition add_all (cells : list (label * cell)) (regions : regions_dict)
    : regions_dict :=
  foldl (fun d p => regions_add p.1 p.2 d) regions cells.

(** The cells of [cells] that carry the label [k], in order. *)
Definition cells_of (k : label) (cells : list (label * cell)) : list cell :=
  (filter (fun p => p.1 = k) cells).*2.

(** The constraints of rule 3, when no index is out of range. *)
Definition rule3 (regions : regions_dict) : list constraint :=
  (fun cells => SumEq cells 1) <$> values regions.

(** The model [solve_puzzle] builds for a board with no index out of
    range. *)
Definition board_model (m : matrix) : Model :=
  let n := length m in
  mkModel n 0 (n - 1) (rule1 n :: rule2 n ++ rule3 (get_puzzle_regions m)).

(** The first statements of [solve_puzzle]: the board it works on. *)
Definition load_puzzle (fs : string -> option string)
    (puzzle_text_path : option string) (puzzle_matrix : option matrix)
    : M matrix :=
  match puzzle_text_path, puzzle_matrix with
  | None, None => raise (ValueError missing_argument)
  | _, Some m => ret m
  | Some path, None => parse_board_from_txt fs path
  end.

(** The statements after the solver is built. *)
Definition search `{ChocoSolver} (fuel : nat) (puzzle : matrix) (model : Model)
    : M Result :=
  '(_, solver) ← solve (get_solver model);
  first_solution ← mapM (fun r => v ← get_value solver r; ret (r, v))
                        (seq 0 (num_vars model));
  count ← count_solutions fuel solver 1;
  ret (mkResult count puzzle first_solution).

(** ** The adjacency rule, as the specification words it *)

(** The Chebyshev distance of two cells: the larger of the distances of
    their rows and of their columns. *)
Definition chebyshev (p q : cell) : Z :=
  Z.max (Z.abs (Z.of_nat p.1 - Z.of_nat q.1))
        (Z.abs (Z.of_nat p.2 - Z.of_nat q.2)).

(** No two markers, of any two rows, at distance 1. *)
Definition no_markers_touch (cols : list nat) : Prop :=
  forall r1 r2 c1 c2, r1 <> r2 ->
    cols !! r1 = Some c1 -> cols !! r2 = Some c2 ->
    chebyshev (r1, c1) (r2, c2) <> 1%Z.

(** The check the source posts: rule 2, between consecutive rows only. *)
Definition consecutive_check (cols : list nat) : Prop :=
  Forall (holds cols) (rule2 (length cols)).

#[global] Instance consecutive_check_dec cols : Decision (consecutive_check cols).
Proof. unfold consecutive_check. apply _. Defined.

(** ** Determinism *)

(** The outcome of [m] and the events it adds are the same from every
    trace. *)
Definition uniform {A} (m : M A) : Prop :=
  forall t, m t = ((m []).1, t ++ (m []).2).

(** The board with every label [k] written [f k]. *)
Definition relabel (f : label -> label) (m : matrix) : matrix :=
  (fun row : list label => f <$> row) <$> m.

(** What the caller reads in a result: the count and the first solution. *)
Definition answer (o : outcome Result) : outcome (nat * list (nat * nat)) :=
  match o with
  | Returned res => Returned (number_of_solutions res, queens res)
  | Raised e => Raised e
  | OutOfFuel => OutOfFuel
  end.

(** ** The check of the parser *)

(** The rows have one length: there is a row, and no two rows differ in
    length. *)
Definition consistent_rows (rows : matrix) : Prop :=
  rows <> [] /\
  forall r1 r2, r1 ∈ rows -> r2 ∈ rows -> length r1 = length r2.

(** ** Boards used as examples *)

(** A 4 by 4 board with one solution. *)
Definition board4 : matrix :=
  map (map LStr)
    [["0"; "0"; "1"; "1"]; ["2"; "0"; "1"; "1"];
     ["2"; "2"; "3"; "1"]; ["2"; "3"; "3"; "3"]].

(** A 2 by 2 board: no assignment satisfies the rules. *)
Definition board2 : matrix := [[LStr "0"; LStr "0"]; [LStr "0"; LStr "0"]].

Definition no_files : string -> option string := fun _ => None.

(** A 4 by 4 board of four square blocks: two solutions. *)
Definition board_blocks : matrix :=
  map (map LStr)
    [["a"; "a"; "b"; "b"]; ["a"; "a"; "b"; "b"];
     ["c"; "c"; "d"; "d"]; ["c"; "c"; "d"; "d"]].

Definition nl : string := String LF "".

(** A file of four rows of three fields, and the rows read from it. *)
Definition text43 : string :=
  "a a a" +:+ nl +:+ "a a a" +:+ nl +:+ "b b b" +:+ nl +:+ "c c c" +:+ nl.

Definition board43 : matrix :=
  map (map LStr)
    [["a"; "a"; "a"]; ["a"; "a"; "a"]; ["b"; "b"; "b"]; ["c"; "c"; "c"]].

(** A file whose rows differ in length. *)
Definition text_ragged : string := "0,1" +:+ nl +:+ "0" +:+ nl.

(** Whitespace that is not ASCII: the next-line character and the no-break
    space, and a file whose first line holds a no-break space. *)
Definition NEL : ascii := ascii_of_nat 133.
Definition NBSP : ascii := ascii_of_nat 160.

Definition text_nbsp : string :=
  "a" +:+ String NBSP "b" +:+ nl +:+ "c d" +:+ nl.

(** Another representation of the labels: strings get a prefix, integers
    are shifted. *)
Definition tag (k : label) : label :=
  match k with
  | LStr s => LStr (String "r"%char s)
  | LInt z => LInt (z + 1)
  end.

(** ** Definitions for the further properties *)

(** No row is wider than the board is high: every index of rule 3 is in
    range. *)
Definition rows_fit (m : matrix) : Prop :=
  Forall (fun row => length row <= length m) m.

#[global] Instance rows_fit_dec m : Decision (rows_fit m).
Proof. unfold rows_fit. apply _. Defined.

(** The file reads of a call of [solve_puzzle]: the text file is read once,
    and only when no matrix is given. *)
Definition reads (puzzle_text_path : option string)
    (puzzle_matrix : option matrix) : trace :=
  match puzzle_text_path, puzzle_matrix with
  | Some path, None => [EvReadText path]
  | _, _ => []
  end.

(** Every character of [s] satisfies [P]. *)
Fixpoint string_forall (P : ascii -> bool) (s : string) : bool :=
  match s with
  | "" => true
  | String c rest => P c && string_forall P rest
  end.

Definition field_char (c : ascii) : bool :=
  negb (isspace c) && negb (bool_decide (c = comma)).

Definition plain (s : string) : Prop :=
  s <> "" /\ string_forall field_char s = true.

#[global] Instance plain_dec s : Decision (plain s).
Proof. unfold plain. apply _. Defined.

(** A board that can be written and read back: no row is empty and every
    cell is written as a plain field. *)
Definition writable (board_rows : matrix) : Prop :=
  Forall (fun row => row <> [] /\ Forall (fun cell => plain (str cell)) row)
         board_rows.

#[global] Instance writable_dec board_rows : Decision (writable board_rows).
Proof. unfold writable. apply _. Defined.

(** The number of lines that are not blank. *)
Definition count_rows (lines : list string) : nat :=
  length (filter (fun ln => strip ln <> "") lines).

(** The label of a cell with a queen on it. *)
Definition with_queen (old : label) : label := LStr ("Q" +:+ str old).

(** The board with [new] at the cell [rc]. *)
Definition set_cell (m : matrix) (rc : cell) (new : label) : matrix :=
  match m !! rc.1 with
  | Some row => <[rc.1 := <[rc.2 := new]> row]> m
  | None => m
  end.

(** Edge [i] of [n] cells, in closed form. *)
Definition edge_at (outer grid base rem n i : Z) : Z :=
  (outer + i * base + Z.min i rem + grid * Z.min i (n - 1))%Z.

(** The edges [es] of [n] cells fill the canvas between the borders: the
    first edge is the border, the last one the opposite border, and the
    cells, the gaps of [grid] pixels between them left out, have the sizes
    [base] or [base + 1]. *)
Definition fills (size outer grid n : Z) (es : list Z) : Prop :=
  length es = S (Z.to_nat n) /\
  es !! 0 = Some outer /\
  last es = Some (size - outer)%Z /\
  forall (c : nat) (a b : Z), es !! c = Some a -> es !! S c = Some b ->
    let gap := if decide (Z.of_nat c < n - 1)%Z then grid else 0%Z in
    let base := ((size - 2 * outer - (n - 1) * grid) / n)%Z in
    (base <= b - a - gap <= base + 1)%Z.



Definition not_comma (c : ascii) : bool := negb (bool_decide (c = comma)).

(** A label as the parser gives it: a string, not empty, without comma. *)
Definition parsed_label (cell : label) : Prop :=
  exists s, cell = LStr s /\ s <> "" /\ string_forall not_comma s = true.

(** * Lemmas *)

(** ** Two solvers that meet the contract *)

Lemma elem_of_candidates (n : nat) (dom a : list nat) :
  a ∈ candidates n dom <-> length a = n /\ Forall (fun v => v ∈ dom) a.
Proof.
  revert a. induction n as [|n IH]; intros a; simpl.
  - rewrite list_elem_of_singleton. split.
    + intros ->. by split.
    + intros [Hlen _]. by destruct a.
  - rewrite list_elem_of_bind. split.
    + intros (c & Ha & Hc). apply list_elem_of_fmap in Ha as (a' & -> & Ha').
      apply IH in Ha' as [<- Hall]. split; [done|]. by constructor.
    + intros [Hlen Hall]. destruct a as [|c a']; [done|].
      inversion Hall; subst. exists c. split; [|done].
      apply list_elem_of_fmap. exists a'. split; [done|].
      apply IH. split; [|done]. simpl in Hlen. lia.
Qed.

Lemma NoDup_candidates (n : nat) (dom : list nat) :
  NoDup dom -> NoDup (candidates n dom).
Proof.
  intros Hdom. induction n as [|n IH]; simpl.
  - apply NoDup_singleton.
  - apply NoDup_bind; [| |done].
    + intros c1 c2 a _ _ H1 H2.
      apply list_elem_of_fmap in H1 as (a1 & -> & _).
      apply list_elem_of_fmap in H2 as (a2 & Heq & _). congruence.
    + intros c _. apply NoDup_fmap_2; [|done]. intros a1 a2. congruence.
Qed.

Lemma elem_of_domain (m : Model) (v : nat) :
  v ∈ domain m <-> lb m <= v <= ub m.
Proof. unfold domain. rewrite elem_of_seq. lia. Qed.

Lemma lex_solutions_spec (m : Model) (a : list nat) :
  a ∈ lex_solutions m <-> satisfies m a.
Proof.
  unfold lex_solutions. rewrite list_elem_of_filter, elem_of_candidates.
  split; [tauto|]. intros Hsat. split; [done|].
  destruct Hsat as (Hlen & Hdom & _). split; [done|].
  eapply Forall_impl; [exact Hdom|]. intros v Hv. by apply elem_of_domain.
Qed.

Lemma lex_solutions_NoDup (m : Model) : NoDup (lex_solutions m).
Proof. apply NoDup_filter, NoDup_candidates, NoDup_seq. Qed.

(** The solver that finds the solutions in lexicographic order. *)
#[export] Instance LexSolver : ChocoSolver := {|
  solutions := lex_solutions;
  solutions_NoDup := lex_solutions_NoDup;
  solutions_spec := lex_solutions_spec
|}.

Lemma rev_solutions_spec (m : Model) (a : list nat) :
  a ∈ reverse (lex_solutions m) <-> satisfies m a.
Proof. rewrite elem_of_reverse. apply lex_solutions_spec. Qed.

Lemma rev_solutions_NoDup (m : Model) : NoDup (reverse (lex_solutions m)).
Proof. rewrite reverse_Permutation. apply lex_solutions_NoDup. Qed.

(** The solver that finds them in the opposite order. *)
Definition RevLexSolver : ChocoSolver := {|
  solutions := fun m => reverse (lex_solutions m);
  solutions_NoDup := rev_solutions_NoDup;
  solutions_spec := rev_solutions_spec
|}.

(** ** Running the monad *)

Lemma run_bind {A B} (m : M A) (k : A -> M B) (t : trace) :
  (m ≫= k) t =
  match m t with
  | (Returned a, t') => k a t'
  | (Raised e, t') => (Raised e, t')
  | (OutOfFuel, t') => (OutOfFuel, t')
  end.
Proof. reflexivity. Qed.

Lemma run_bind_returned {A B} (m : M A) (k : A -> M B) t a t' :
  m t = (Returned a, t') -> (m ≫= k) t = k a t'.
Proof. intros H. by rewrite run_bind, H. Qed.

Lemma run_bind_raised {A B} (m : M A) (k : A -> M B) t e t' :
  m t = (Raised e, t') -> (m ≫= k) t = (Raised e, t').
Proof. intros H. by rewrite run_bind, H. Qed.

Section mapM_facts.
Context {A B : Type}.

Lemma mapM_cons (f : A -> M B) (x : A) (xs : list A) :
  mapM f (x :: xs) = (y ← f x; ys ← mapM f xs; ret (y :: ys)).
Proof. reflexivity. Qed.

(** A loop whose body neither raises nor calls out returns the mapped
    list. *)
Lemma mapM_returned (f : A -> M B) (g : A -> B) (xs : list A) (t : trace) :
  (forall x, x ∈ xs -> f x t = (Returned (g x), t)) ->
  mapM f xs t = (Returned (g <$> xs), t).
Proof.
  induction xs as [|x xs IH]; intros Hf; [done|]. rewrite mapM_cons.
  erewrite run_bind_returned; [|apply Hf; by left].
  erewrite run_bind_returned; [|apply IH; intros y Hy; apply Hf; by right].
  done.
Qed.

(** A loop whose body, where it does not return, raises [e] with the trace
    as it was: so does the loop, as soon as one element raises. *)
Lemma mapM_raised (f : A -> M B) (e : exn) (xs : list A) (t : trace) :
  (forall x, x ∈ xs -> (exists b, f x t = (Returned b, t)) \/ f x t = (Raised e, t)) ->
  (exists x, x ∈ xs /\ f x t = (Raised e, t)) ->
  mapM f xs t = (Raised e, t).
Proof.
  induction xs as [|x xs IH]; intros Hf (y & Hy & Hraise).
  - by apply elem_of_nil in Hy.
  - rewrite mapM_cons. destruct (Hf x) as [[b Hb]|Hx]; [by left| |].
    + erewrite run_bind_returned; [|exact Hb].
      apply elem_of_cons in Hy as [->|Hy]; [congruence|].
      erewrite run_bind_raised; [done|].
      apply IH; [intros z Hz; apply Hf; by right|eauto].
    + by erewrite run_bind_raised.
Qed.
End mapM_facts.

(** ** The regions of a grid *)

Lemma add_all_cons p cells d :
  add_all (p :: cells) d = add_all cells (regions_add p.1 p.2 d).
Proof. reflexivity. Qed.

Lemma add_all_app cs1 cs2 d : add_all (cs1 ++ cs2) d = add_all cs2 (add_all cs1 d).
Proof. apply foldl_app. Qed.

Lemma get_puzzle_regions_add_all m :
  get_puzzle_regions m = add_all (labelled_cells m) [].
Proof.
  unfold get_puzzle_regions, labelled_cells.
  generalize (@nil (label * list cell)) as d.
  induction (enumerate m) as [|[r row] rows IH]; intros d; [done|].
  cbn [foldl]. rewrite IH. csimpl. rewrite add_all_app. f_equal.
  clear. revert d. induction (enumerate row) as [|[c val] cs IH]; intros d; [done|].
  cbn [foldl]. rewrite IH. done.
Qed.

Lemma dict_get_regions_add (val k : label) (rc : cell) (d : regions_dict) :
  dict_get (regions_add val rc d) k =
  if decide (k = val) then Some (default [] (dict_get d val) ++ [rc])
  else dict_get d k.
Proof.
  induction d as [|[k' cells] d IH]; simpl.
  - repeat case_decide; naive_solver.
  - destruct (decide (k' = val)) as [->|Hne]; simpl.
    + destruct (decide (val = k)) as [->|Hk].
      * by rewrite decide_True.
      * by rewrite decide_False.
    + rewrite IH. destruct (decide (k' = k)) as [->|Hk]; [|done].
      by rewrite decide_False.
Qed.

Lemma dict_get_add_all (cells : list (label * cell)) (k : label) :
  dict_get (add_all cells []) k =
  match cells_of k cells with [] => None | cs => Some cs end.
Proof.
  induction cells as [|[val rc] cells IH] using rev_ind; [done|].
  rewrite add_all_app. cbn [add_all foldl]. rewrite dict_get_regions_add. simpl.
  unfold cells_of in *. rewrite filter_app, fmap_app.
  rewrite filter_cons, filter_nil. simpl.
  case_decide as Hk; subst.
  - rewrite decide_True by done. simpl. rewrite IH.
    by destruct ((filter _ cells).*2).
  - rewrite decide_False by congruence. simpl. rewrite app_nil_r. apply IH.
Qed.

Lemma enumerate_fst {A} (l : list A) : (enumerate l).*1 = seq 0 (length l).
Proof. apply fst_zip. by rewrite length_seq. Qed.

Lemma enumerate_snd {A} (l : list A) : (enumerate l).*2 = l.
Proof. apply snd_zip. by rewrite length_seq. Qed.

Lemma elem_of_enumerate {A} (l : list A) (i : nat) (x : A) :
  (i, x) ∈ enumerate l <-> l !! i = Some x.
Proof.
  unfold enumerate. rewrite list_elem_of_lookup. split.
  - intros (j & Hj). apply lookup_zip_with_Some in Hj as (i' & x' & Heq & Hi & Hx).
    injection Heq as -> ->. apply lookup_seq in Hi as [-> _]. done.
  - intros Hx. exists i. apply lookup_zip_with_Some. exists i, x.
    split_and!; [done| |done]. apply lookup_seq. split; [done|].
    by eapply lookup_lt_Some.
Qed.

Lemma NoDup_enumerate {A} (l : list A) : NoDup (enumerate l).
Proof. apply NoDup_fmap_1 with (f := fst). rewrite enumerate_fst. apply NoDup_seq. Qed.

Lemma elem_of_all_cells (m : matrix) (rc : cell) :
  rc ∈ all_cells m <-> is_Some (label_at m rc).
Proof.
  destruct rc as [r c]. unfold all_cells, label_at. rewrite list_elem_of_bind. simpl. split.
  - intros ([r' row] & Hc & Hrow). apply elem_of_enumerate in Hrow.
    apply list_elem_of_fmap in Hc as (c' & [= -> ->] & Hc).
    simpl. rewrite Hrow. simpl. apply lookup_lt_is_Some. apply elem_of_seq in Hc. lia.
  - destruct (m !! r) as [row|] eqn:Hrow; simpl; [|by intros [? ?]].
    intros Hc. exists (r, row). split; [|by apply elem_of_enumerate].
    apply list_elem_of_fmap. exists c. split; [done|].
    apply elem_of_seq. apply lookup_lt_is_Some in Hc. lia.
Qed.

Lemma NoDup_all_cells (m : matrix) : NoDup (all_cells m).
Proof.
  unfold all_cells. apply NoDup_bind.
  - intros [r1 row1] [r2 row2] [r c] H1 H2 Hc1 Hc2.
    apply list_elem_of_fmap in Hc1 as (? & [= -> ->] & _).
    apply list_elem_of_fmap in Hc2 as (? & [= -> _] & _).
    apply elem_of_enumerate in H1, H2. congruence.
  - intros [r row] _. apply NoDup_fmap_2; [|apply NoDup_seq]. intros ??. congruence.
  - apply NoDup_enumerate.
Qed.

Lemma labelled_cells_snd (m : matrix) : (labelled_cells m).*2 = all_cells m.
Proof.
  unfold labelled_cells, all_cells.
  induction (enumerate m) as [|[r row] rows IH]; [done|]. csimpl.
  rewrite fmap_app, IH. f_equal.
  rewrite <- (enumerate_fst row), <- !list_fmap_compose.
  apply list_fmap_ext. by intros ? [c val].
Qed.

Lemma labelled_cells_label (m : matrix) :
  Forall (fun p => label_at m p.2 = Some p.1) (labelled_cells m).
Proof.
  apply Forall_forall. intros [val [r c]] Hin. unfold labelled_cells in Hin.
  apply list_elem_of_bind in Hin as ([r' row] & Hin & Hrow).
  apply list_elem_of_fmap in Hin as ([c' val'] & [= -> -> ->] & Hc).
  apply elem_of_enumerate in Hrow, Hc. unfold label_at. simpl. by rewrite Hrow.
Qed.

Lemma cells_of_filter (g : cell -> option label) (k : label)
    (cells : list (label * cell)) :
  Forall (fun p => g p.2 = Some p.1) cells ->
  cells_of k cells = filter (fun rc => g rc = Some k) cells.*2.
Proof.
  unfold cells_of. induction 1 as [|[val rc] cells Hp _ IH]; [done|].
  simpl in Hp. rewrite fmap_cons, !filter_cons. simpl. rewrite Hp.
  destruct (decide (val = k)) as [->|Hne].
  - rewrite decide_True by done. by rewrite fmap_cons, IH.
  - rewrite decide_False by congruence. done.
Qed.

Lemma cells_of_grid (m : matrix) (k : label) :
  cells_of k (labelled_cells m) =
  filter (fun rc => label_at m rc = Some k) (all_cells m).
Proof.
  rewrite <- labelled_cells_snd. apply cells_of_filter, labelled_cells_label.
Qed.

Lemma regions_add_keys (val : label) (rc : cell) (d : regions_dict) :
  (regions_add val rc d).*1 = if decide (val ∈ d.*1) then d.*1 else d.*1 ++ [val].
Proof.
  induction d as [|[k cells] d IH]; cbn [regions_add fmap list_fmap fst].
  - destruct (decide (val ∈ [])) as [Hin|_]; [|done]. by apply elem_of_nil in Hin.
  - destruct (decide (k = val)) as [->|Hne]; cbn [fmap list_fmap fst].
    + destruct (decide (val ∈ val :: d.*1)) as [_|Hnin]; [done|].
      exfalso. apply Hnin. by left.
    + rewrite IH. destruct (decide (val ∈ d.*1)) as [Hin|Hnin].
      * destruct (decide (val ∈ k :: d.*1)) as [_|Hnin']; [done|].
        exfalso. apply Hnin'. by right.
      * destruct (decide (val ∈ k :: d.*1)) as [Hin'|_]; [|done].
        apply elem_of_cons in Hin' as [->|Hin']; done.
Qed.

Lemma regions_add_NoDup (val : label) (rc : cell) (d : regions_dict) :
  NoDup d.*1 -> NoDup (regions_add val rc d).*1.
Proof.
  intros Hd. rewrite regions_add_keys. case_decide; [done|].
  apply NoDup_app. split_and!; [done| |apply NoDup_singleton].
  intros k Hk ->%list_elem_of_singleton. done.
Qed.

Lemma add_all_NoDup (cells : list (label * cell)) (d : regions_dict) :
  NoDup d.*1 -> NoDup (add_all cells d).*1.
Proof.
  revert d. induction cells as [|p cells IH]; intros d Hd; [done|].
  rewrite add_all_cons. apply IH. by apply regions_add_NoDup.
Qed.

Lemma regions_add_cells (val : label) (rc : cell) (d : regions_dict) :
  mjoin (values (regions_add val rc d)) ≡ₚ rc :: mjoin (values d).
Proof.
  unfold values. induction d as [|[k cells] d IH]; simpl; [done|].
  destruct (decide (k = val)) as [->|Hne]; simpl.
  - rewrite <- app_assoc. simpl. by rewrite <- Permutation_middle.
  - rewrite IH. by rewrite <- Permutation_middle.
Qed.

Lemma add_all_cells (cells : list (label * cell)) (d : regions_dict) :
  mjoin (values (add_all cells d)) ≡ₚ mjoin (values d) ++ cells.*2.
Proof.
  revert d. induction cells as [|[val rc] cells IH]; intros d.
  - by rewrite app_nil_r.
  - rewrite add_all_cons, fmap_cons. simpl.
    rewrite IH, regions_add_cells. simpl. by rewrite <- Permutation_middle.
Qed.

Lemma dict_get_elem_of (d : regions_dict) (k : label) (cells : list cell) :
  NoDup d.*1 -> (k, cells) ∈ d <-> dict_get d k = Some cells.
Proof.
  induction d as [|[k' cells'] d IH]; simpl; intros Hd.
  - split; [by intros ?%elem_of_nil|done].
  - apply NoDup_cons in Hd as [Hk' Hd]. rewrite elem_of_cons.
    destruct (decide (k' = k)) as [->|Hne].
    + split; [|intros [= ->]; by left]. intros [[= ->]|Hin]; [done|].
      exfalso. apply Hk'. apply list_elem_of_fmap. by exists (k, cells).
    + specialize (IH Hd). rewrite <- IH. split; [|by right].
      intros [[= ? ?]|Hin]; done.
Qed.

Lemma dict_get_is_Some (d : regions_dict) (k : label) :
  k ∈ d.*1 <-> is_Some (dict_get d k).
Proof.
  induction d as [|[k' cells] d IH]; simpl.
  - split; [by intros ?%elem_of_nil|by intros [? ?]].
  - rewrite elem_of_cons. destruct (decide (k' = k)) as [->|Hne].
    + split; [by eexists|by left].
    + rewrite <- IH. split; [intros [?|?]; done|by right].
Qed.

Lemma elem_of_labels (m : matrix) (k : label) :
  k ∈ labels m <-> exists rc, label_at m rc = Some k.
Proof.
  unfold labels, label_at. rewrite list_elem_of_join. split.
  - intros (row & Hk & Hrow). apply list_elem_of_lookup in Hrow as [r Hr].
    apply list_elem_of_lookup in Hk as [c Hc]. exists (r, c). simpl. by rewrite Hr.
  - intros ([r c] & Hrc). simpl in Hrc.
    destruct (m !! r) as [row|] eqn:Hr; [|done]. simpl in Hrc.
    exists row. split; by eapply list_elem_of_lookup_2.
Qed.

Lemma length_all_cells (n : nat) (m : matrix) :
  length m = n -> Forall (fun row => length row = n) m ->
  length (all_cells m) = n * n.
Proof.
  intros <- Hrows. unfold all_cells.
  assert (Forall (fun p : nat * list label => length p.2 = length m) (enumerate m)) as Hen.
  { apply Forall_forall. intros [r row] Hin%elem_of_enumerate. simpl.
    rewrite Forall_forall in Hrows. apply Hrows. by eapply list_elem_of_lookup_2. }
  assert (length (enumerate m) = length m) as Hlen.
  { unfold enumerate. rewrite length_zip, length_seq. lia. }
  rewrite <- Hlen at 2. clear Hlen Hrows.
  induction Hen as [|[r row] rows Hrow _ IH]; [done|]. csimpl.
  rewrite length_app, length_fmap, length_seq, IH. simpl in Hrow. lia.
Qed.

(** The regions [get_puzzle_regions] derives are the cells of the grid, by
    label. *)
Lemma regions_partition (m : matrix) :
  let regions := get_puzzle_regions m in
  NoDup regions.*1 /\
  (forall k, k ∈ regions.*1 <-> k ∈ labels m) /\
  (forall k cells, (k, cells) ∈ regions ->
     cells <> [] /\
     cells = filter (fun rc => label_at m rc = Some k) (all_cells m)) /\
  (forall k1 k2 cells1 cells2 rc,
     (k1, cells1) ∈ regions -> (k2, cells2) ∈ regions ->
     rc ∈ cells1 -> rc ∈ cells2 -> k1 = k2) /\
  mjoin (values regions) ≡ₚ all_cells m /\
  NoDup (mjoin (values regions)) /\
  (forall n, length m = n -> Forall (fun row => length row = n) m ->
     length (mjoin (values regions)) = n * n).
Proof.
  intros regions. subst regions. rewrite get_puzzle_regions_add_all.
  assert (NoDup (add_all (labelled_cells m) []).*1) as Hkeys
    by (apply add_all_NoDup, NoDup_nil_2).
  assert (forall k cells, (k, cells) ∈ add_all (labelled_cells m) [] ->
            cells <> [] /\
            cells = filter (fun rc => label_at m rc = Some k) (all_cells m)) as Hcells.
  { intros k cells Hin. apply dict_get_elem_of in Hin; [|done].
    rewrite dict_get_add_all, cells_of_grid in Hin.
    destruct (filter _ (all_cells m)) as [|rc cs] eqn:Heq; [done|].
    by injection Hin as <-. }
  assert (mjoin (values (add_all (labelled_cells m) [])) ≡ₚ all_cells m) as Hperm.
  { rewrite add_all_cells. simpl. by rewrite labelled_cells_snd. }
  split_and!; [done| |done| |done| |].
  - intros k. rewrite dict_get_is_Some, dict_get_add_all, cells_of_grid, elem_of_labels.
    split.
    + destruct (filter _ (all_cells m)) as [|rc cs] eqn:Heq; [by intros [? ?]|].
      intros _. exists rc.
      assert (rc ∈ filter (fun rc => label_at m rc = Some k) (all_cells m)) as Hin
        by (rewrite Heq; by left).
      by apply list_elem_of_filter in Hin as [? _].
    + intros [rc Hrc].
      assert (rc ∈ filter (fun rc => label_at m rc = Some k) (all_cells m)) as Hin.
      { apply list_elem_of_filter. split; [done|]. apply elem_of_all_cells. by eexists. }
      destruct (filter _ (all_cells m)); [by apply elem_of_nil in Hin|by eexists].
  - intros k1 k2 cells1 cells2 rc H1 H2 Hrc1 Hrc2.
    apply Hcells in H1 as [_ ->]. apply Hcells in H2 as [_ ->].
    apply list_elem_of_filter in Hrc1 as [Hk1 _].
    apply list_elem_of_filter in Hrc2 as [Hk2 _]. congruence.
  - rewrite Hperm. apply NoDup_all_cells.
  - intros n Hn Hrows. rewrite Hperm. by apply length_all_cells.
Qed.

(** ** The model of a board and the rules *)

Lemma sum_list_with_indicator {A} (Q : A -> Prop) `{!forall x, Decision (Q x)}
    (l : list A) :
  sum_list_with (fun x => if decide (Q x) then 1 else 0) l = length (filter Q l).
Proof.
  induction l as [|x l IH]; [done|]. rewrite filter_cons. simpl.
  destruct (decide (Q x)); simpl; lia.
Qed.

Lemma markers_in_grid (m : matrix) (cols : list nat) :
  valid_board m -> length cols = length m -> Forall (fun c => c < length m) cols ->
  forall rc, rc ∈ markers cols -> rc ∈ all_cells m.
Proof.
  intros [_ Hrows] Hlen Hcols [r c] Hin. apply elem_of_enumerate in Hin.
  apply elem_of_all_cells. unfold label_at. simpl.
  assert (r < length m) as Hr by (apply lookup_lt_Some in Hin; lia).
  apply lookup_lt_is_Some in Hr as [row Hrow]. rewrite Hrow. simpl.
  apply lookup_lt_is_Some.
  rewrite Forall_forall in Hrows. rewrite Forall_forall in Hcols.
  rewrite (Hrows row) by (by eapply list_elem_of_lookup_2).
  apply Hcols. by eapply list_elem_of_lookup_2.
Qed.

(** The sum posted for a region counts the markers of the region. *)
Lemma region_sum (m : matrix) (cols : list nat) (P : cell -> Prop)
    `{!forall rc, Decision (P rc)} :
  (forall rc, rc ∈ markers cols -> rc ∈ all_cells m) ->
  sum_list_with (bool_value cols) (filter P (all_cells m)) =
  length (filter P (markers cols)).
Proof.
  intros Hsub. unfold bool_value.
  rewrite (sum_list_with_indicator (fun rc => cols !! rc.1 = Some rc.2)).
  apply Permutation_length, NoDup_Permutation.
  - apply NoDup_filter, NoDup_filter, NoDup_all_cells.
  - apply NoDup_filter, NoDup_enumerate.
  - intros [r c]. rewrite !list_elem_of_filter. unfold markers in *.
    rewrite elem_of_enumerate. simpl. split; [tauto|].
    intros [HP Hin]. split_and!; [done..|]. apply Hsub. by apply elem_of_enumerate.
Qed.

Lemma value_seq (cols : list nat) : value cols <$> seq 0 (length cols) = cols.
Proof.
  apply list_eq. intros i. rewrite list_lookup_fmap.
  destruct (cols !! i) as [c|] eqn:Hc.
  - rewrite (proj2 (lookup_seq 0 (length cols) i i)); simpl.
    + unfold value. by rewrite Hc.
    + split; [done|]. by eapply lookup_lt_Some.
  - apply lookup_ge_None in Hc. rewrite (proj2 (lookup_ge_None _ _)); [done|].
    by rewrite length_seq.
Qed.

Lemma rule1_holds (n : nat) (cols : list nat) :
  length cols = n -> holds cols (rule1 n) <-> NoDup cols.
Proof. intros <-. unfold rule1. simpl. by rewrite value_seq. Qed.

Lemma rule2_holds (n : nat) (cols : list nat) :
  length cols = n -> Forall (holds cols) (rule2 n) <-> consecutive_rows_apart cols.
Proof.
  intros <-. unfold rule2, consecutive_rows_apart.
  rewrite Forall_fmap, Forall_forall. split.
  - intros H r c1 c2 H1 H2. specialize (H r). simpl in H. unfold value in H.
    replace (r + 1) with (S r) in H by lia. rewrite H1, H2 in H. apply H.
    apply elem_of_seq. apply lookup_lt_Some in H2. lia.
  - intros H r Hr%elem_of_seq. simpl. unfold value. replace (r + 1) with (S r) by lia.
    destruct (lookup_lt_is_Some_2 cols r) as [c1 H1]; [lia|].
    destruct (lookup_lt_is_Some_2 cols (S r)) as [c2 H2]; [lia|].
    rewrite H1, H2. simpl. by eapply H.
Qed.

Lemma rule3_holds (m : matrix) (cols : list nat) :
  valid_board m -> columns_distinct (length m) cols ->
  Forall (holds cols) (rule3 (get_puzzle_regions m)) <->
  one_marker_per_region m cols.
Proof.
  intros Hm (Hlen & Hcols & _).
  pose proof (markers_in_grid m cols Hm Hlen Hcols) as Hsub.
  destruct (regions_partition m) as (Hkeys & Hlabels & Hcells & _).
  unfold rule3, values, one_marker_per_region.
  rewrite <- list_fmap_compose, Forall_fmap, Forall_forall. split.
  - intros H k Hk. apply Hlabels in Hk.
    apply list_elem_of_fmap in Hk as ([k' cells] & -> & Hin).
    specialize (H _ Hin). simpl in *. apply Hcells in Hin as [_ ->].
    by rewrite region_sum in H.
  - intros H [k cells] Hin. simpl. pose proof Hin as [_ ->]%Hcells.
    rewrite region_sum by done. apply H, Hlabels.
    apply list_elem_of_fmap. by exists (k, filter (fun rc => label_at m rc = Some k) (all_cells m)).
Qed.

Lemma satisfies_board_model (m : matrix) (cols : list nat) :
  valid_board m -> satisfies (board_model m) cols <-> is_solution m cols.
Proof.
  intros Hm. pose proof Hm as [Hn _].
  unfold satisfies, is_solution, board_model. simpl.
  rewrite Forall_cons, Forall_app.
  assert (Forall (fun v => 0 <= v <= length m - 1) cols <->
          Forall (fun c => c < length m) cols) as ->.
  { apply Forall_proper; [|done]. intros v. lia. }
  split.
  - intros (Hlen & Hdom & H1 & H2 & H3).
    apply rule1_holds in H1; [|done]. apply rule2_holds in H2; [|done].
    assert (columns_distinct (length m) cols) as Hcols by done.
    split_and!; [done..|]. by apply rule3_holds.
  - intros (Hcols & H2 & H3). pose proof Hcols as (Hlen & Hdom & H1).
    split_and!; [done..| | |].
    + by apply rule1_holds.
    + by apply rule2_holds.
    + by apply rule3_holds.
Qed.

Lemma cell_has_queen_index (n r c : nat) (t : trace) :
  r < n -> c < n ->
  (row ← index (cell_has_queen n) r; index row c) t = (Returned (r, c), t).
Proof.
  intros Hr Hc. unfold index, cell_has_queen.
  rewrite list_lookup_fmap, (proj2 (lookup_seq 0 n r r)) by done. simpl.
  erewrite run_bind_returned; [|reflexivity].
  by rewrite list_lookup_fmap, (proj2 (lookup_seq 0 n c c)).
Qed.

Lemma cell_has_queen_index_error (n r c : nat) (t : trace) :
  n <= c ->
  (row ← index (cell_has_queen n) r; index row c) t = (Raised IndexError, t).
Proof.
  intros Hc. unfold index, cell_has_queen. rewrite list_lookup_fmap.
  destruct (seq 0 n !! r) as [r'|]; simpl; [|done].
  erewrite run_bind_returned; [|reflexivity].
  rewrite list_lookup_fmap, (proj2 (lookup_ge_None _ _)); [done|].
  by rewrite length_seq.
Qed.

Lemma region_constraint_returned (n : nat) (cells : list cell) (t : trace) :
  Forall (fun rc => rc.1 < n /\ rc.2 < n) cells ->
  region_constraint n cells t = (Returned (SumEq cells 1), t).
Proof.
  intros Hcells. unfold region_constraint.
  erewrite run_bind_returned; [reflexivity|].
  rewrite <- (list_fmap_id cells) at 2. apply mapM_returned.
  intros [r c] Hin. rewrite Forall_forall in Hcells.
  destruct (Hcells _ Hin). by apply cell_has_queen_index.
Qed.

Lemma valid_board_cells (m : matrix) (rc : cell) :
  valid_board m -> rc ∈ all_cells m -> rc.1 < length m /\ rc.2 < length m.
Proof.
  intros [_ Hrows] [l Hl]%elem_of_all_cells. destruct rc as [r c].
  unfold label_at in Hl. simpl in *.
  destruct (m !! r) as [row|] eqn:Hrow; [|done]. simpl in Hl.
  split; [by eapply lookup_lt_Some|].
  rewrite Forall_forall in Hrows. rewrite <- (Hrows row).
  - by eapply lookup_lt_Some.
  - by eapply list_elem_of_lookup_2.
Qed.

Lemma rule3_returned (m : matrix) (t : trace) :
  valid_board m ->
  mapM (region_constraint (length m)) (values (get_puzzle_regions m)) t =
  (Returned (rule3 (get_puzzle_regions m)), t).
Proof.
  intros Hm. apply mapM_returned. intros cells Hin.
  apply region_constraint_returned, Forall_forall. intros rc Hrc.
  apply valid_board_cells; [done|].
  destruct (regions_partition m) as (_ & _ & _ & _ & Hperm & _).
  rewrite <- Hperm. apply list_elem_of_join. eauto.
Qed.

Lemma count_solutions_run (fuel : nat) (pending : list (list nat))
    (cur : option (list nat)) (count : nat) (t : trace) :
  count_solutions fuel (mkSolver pending cur) count t =
  if decide (length pending < fuel)
  then (Returned (count + length pending),
        t ++ replicate (length pending) (EvSolve true) ++ [EvSolve false])
  else (OutOfFuel, t ++ replicate fuel (EvSolve true)).
Proof.
  revert pending cur count t. induction fuel as [|fuel IH]; intros pending cur count t.
  - rewrite decide_False by lia. simpl. by rewrite app_nil_r.
  - destruct pending as [|a rest].
    + rewrite decide_True by (simpl; lia). simpl. by rewrite Nat.add_0_r.
    + cbn [count_solutions]. erewrite run_bind_returned; [|reflexivity].
      cbn beta iota. rewrite IH. simpl.
      destruct (decide (length rest < fuel)).
      * rewrite decide_True by lia. rewrite <- app_assoc. simpl.
        do 2 f_equal. lia.
      * rewrite decide_False by lia. by rewrite <- app_assoc.
Qed.

Lemma zip_fmap_diag {A B} (f : A -> B) (l : list A) :
  zip l (f <$> l) = (fun x => (x, f x)) <$> l.
Proof.
  induction l as [|x l IH]; [done|].
  rewrite !fmap_cons. cbn [zip_with]. by rewrite IH.
Qed.

Lemma markers_fmap (cols : list nat) :
  (fun r => (r, value cols r)) <$> seq 0 (length cols) = markers cols.
Proof.
  unfold markers, enumerate. rewrite <- zip_fmap_diag. by rewrite value_seq.
Qed.

Lemma first_solution_returned (pending : list (list nat)) (a : list nat) (t : trace) :
  mapM (fun r => v ← get_value (mkSolver pending (Some a)) r; ret (r, v))
       (seq 0 (length a)) t = (Returned (markers a), t).
Proof.
  rewrite <- markers_fmap. apply mapM_returned. intros r Hr%elem_of_seq.
  unfold get_value, value. simpl.
  destruct (lookup_lt_is_Some_2 a r) as [v Hv]; [lia|]. by rewrite Hv.
Qed.

Lemma first_solution_raised (pending : list (list nat)) (n : nat) (t : trace) :
  0 < n ->
  mapM (fun r => v ← get_value (mkSolver pending None) r; ret (r, v)) (seq 0 n) t =
  (Raised (AssertionError not_instantiated), t).
Proof.
  intros Hn. apply mapM_raised.
  - intros r _. by right.
  - exists 0. split; [|done]. apply elem_of_seq. lia.
Qed.

(** ** [solve_puzzle], step by step *)

Lemma solve_puzzle_steps `{ChocoSolver} fs fuel path mx :
  solve_puzzle fs fuel path mx =
  (puzzle ← load_puzzle fs path mx;
   let n := length puzzle in
   rule3 ← mapM (region_constraint n) (values (get_puzzle_regions puzzle));
   search fuel puzzle (mkModel n 0 (n - 1) (rule1 n :: rule2 n ++ rule3))).
Proof. reflexivity. Qed.

Lemma search_run `{ChocoSolver} (fuel : nat) (puzzle : matrix) (model : Model)
    (t : trace) :
  0 < num_vars model ->
  search fuel puzzle model t =
  match solutions model with
  | [] => (Raised (AssertionError not_instantiated), t ++ [EvSolve false])
  | a :: rest =>
      if decide (length rest < fuel)
      then (Returned (mkResult (1 + length rest) puzzle (markers a)),
            (t ++ [EvSolve true]) ++
            replicate (length rest) (EvSolve true) ++ [EvSolve false])
      else (OutOfFuel, (t ++ [EvSolve true]) ++ replicate fuel (EvSolve true))
  end.
Proof.
  intros Hn. unfold search, get_solver.
  destruct (solutions model) as [|a rest] eqn:Hsol.
  - erewrite run_bind_returned; [|reflexivity]. cbn beta iota.
    erewrite run_bind_raised; [done|]. by apply first_solution_raised.
  - assert (length a = num_vars model) as <-.
    { assert (a ∈ solutions model) as Ha by (rewrite Hsol; by left).
      by apply solutions_spec in Ha as [? _]. }
    erewrite run_bind_returned; [|reflexivity]. cbn beta iota.
    erewrite run_bind_returned; [|apply first_solution_returned].
    rewrite run_bind, count_solutions_run. by destruct (decide (length rest < fuel)).
Qed.

Lemma solve_puzzle_board `{ChocoSolver} fs fuel path (m : matrix) (t : trace) :
  valid_board m ->
  solve_puzzle fs fuel path (Some m) t = search fuel m (board_model m) t.
Proof.
  intros Hm. rewrite solve_puzzle_steps.
  erewrite run_bind_returned; [|by destruct path]. cbn zeta.
  erewrite run_bind_returned; [|by apply rule3_returned]. done.
Qed.

Lemma elem_of_all_assignments (m : matrix) (cols : list nat) :
  cols ∈ all_assignments m <-> is_solution m cols.
Proof.
  unfold all_assignments. rewrite list_elem_of_filter, elem_of_candidates.
  split; [tauto|]. intros Hsol. split; [done|].
  destruct Hsol as ((Hlen & Hdom & _) & _). split; [done|].
  eapply Forall_impl; [exact Hdom|]. intros c Hc. simpl in Hc.
  apply elem_of_seq. lia.
Qed.

Lemma NoDup_all_assignments (m : matrix) : NoDup (all_assignments m).
Proof. apply NoDup_filter, NoDup_candidates, NoDup_seq. Qed.

(** The solutions the solver finds for a valid board are the assignments
    that satisfy the three rules, each one once. *)
Lemma solutions_all_assignments `{ChocoSolver} (m : matrix) :
  valid_board m -> solutions (board_model m) ≡ₚ all_assignments m.
Proof.
  intros Hm. apply NoDup_Permutation.
  - apply solutions_NoDup.
  - apply NoDup_all_assignments.
  - intros a. by rewrite solutions_spec, satisfies_board_model, elem_of_all_assignments.
Qed.

Lemma length_bind_const {A B} (f : A -> list B) (l : list A) (k : nat) :
  (forall x, length (f x) = k) -> length (l ≫= f) = length l * k.
Proof.
  intros Hf. induction l as [|x l IH]; [done|]. csimpl.
  rewrite length_app, Hf, IH. lia.
Qed.

Lemma length_candidates (n : nat) (dom : list nat) :
  length (candidates n dom) = length dom ^ n.
Proof.
  induction n as [|n IH]; [done|]. cbn [candidates].
  rewrite (length_bind_const _ _ (length dom ^ n)).
  - simpl. lia.
  - intros c. by rewrite length_fmap.
Qed.

(** The search space of an [n] by [n] board holds [n ^ n] assignments. *)
Lemma length_all_assignments (m : matrix) :
  length (all_assignments m) <= length m ^ length m.
Proof.
  unfold all_assignments. etrans; [apply length_filter|].
  by rewrite length_candidates, length_seq.
Qed.

Lemma run_bind_returned_inv {A B} (m : M A) (k : A -> M B) t b t' :
  (m ≫= k) t = (Returned b, t') ->
  exists a t1, m t = (Returned a, t1) /\ k a t1 = (Returned b, t').
Proof.
  rewrite run_bind. destruct (m t) as [[a|e|] t1]; [eauto|done..].
Qed.

Lemma search_returned_inv `{ChocoSolver} fuel puzzle model t res t' :
  search fuel puzzle model t = (Returned res, t') ->
  initial_board res = puzzle /\ 1 <= number_of_solutions res.
Proof.
  unfold search. intros Hrun.
  apply run_bind_returned_inv in Hrun as ([found s] & t1 & _ & Hrun).
  apply run_bind_returned_inv in Hrun as (first & t2 & _ & Hrun).
  apply run_bind_returned_inv in Hrun as (count & t3 & Hcount & Hrun).
  injection Hrun as <- _. split; [done|]. simpl.
  destruct s as [pending cur]. rewrite count_solutions_run in Hcount.
  destruct (decide (length pending < fuel)); [|done]. injection Hcount as <- _. lia.
Qed.

Lemma solve_puzzle_returned_inv `{ChocoSolver} fs fuel path mx t res t' :
  solve_puzzle fs fuel path mx t = (Returned res, t') ->
  exists t1, load_puzzle fs path mx t = (Returned (initial_board res), t1) /\
             solve_puzzle fs fuel path (Some (initial_board res)) t1 = (Returned res, t').
Proof.
  rewrite !solve_puzzle_steps. intros Hrun.
  apply run_bind_returned_inv in Hrun as (m & t1 & Hload & Hrun).
  assert (initial_board res = m) as ->.
  { cbn zeta in Hrun.
    apply run_bind_returned_inv in Hrun as (r3 & t2 & _ & Hrun).
    by apply search_returned_inv in Hrun as [? _]. }
  exists t1. split; [done|].
  erewrite run_bind_returned; [exact Hrun|]. by destruct path.
Qed.

(** A result that is returned never counts zero solutions. *)
Lemma number_of_solutions_positive `{ChocoSolver} fs fuel path mx t res t' :
  solve_puzzle fs fuel path mx t = (Returned res, t') ->
  1 <= number_of_solutions res.
Proof.
  rewrite solve_puzzle_steps. intros Hrun.
  apply run_bind_returned_inv in Hrun as (m & t1 & _ & Hrun). cbn zeta in Hrun.
  apply run_bind_returned_inv in Hrun as (r3 & t2 & _ & Hrun).
  by apply search_returned_inv in Hrun as [_ ?].
Qed.

(** What [solve_puzzle] does on a valid board, by the number of assignments
    that satisfy the rules. *)
Lemma solve_puzzle_valid_board `{ChocoSolver} fs fuel path (m : matrix) t :
  valid_board m ->
  match all_assignments m with
  | [] =>
      solve_puzzle fs fuel path (Some m) t =
      (Raised (AssertionError not_instantiated), t ++ [EvSolve false])
  | _ :: others =>
      if decide (length others < fuel) then
        exists first, first ∈ all_assignments m /\
          solve_puzzle fs fuel path (Some m) t =
          (Returned (mkResult (length (all_assignments m)) m (markers first)),
           t ++ replicate (length (all_assignments m)) (EvSolve true)
             ++ [EvSolve false])
      else
        solve_puzzle fs fuel path (Some m) t =
        (OutOfFuel, t ++ replicate (S fuel) (EvSolve true))
  end.
Proof.
  intros Hm. rewrite solve_puzzle_board by done.
  rewrite search_run by (simpl; apply Hm).
  pose proof (solutions_all_assignments m Hm) as Hperm.
  destruct (solutions (board_model m)) as [|a rest] eqn:Hsol.
  - apply Permutation_nil_l in Hperm. by rewrite <- Hperm.
  - pose proof (Permutation_length Hperm) as Hlen.
    destruct (all_assignments m) as [|b others] eqn:Hall; [done|].
    simpl in Hlen. injection Hlen as Hlen. rewrite <- Hlen.
    destruct (decide (length rest < fuel)).
    + exists a. split; [rewrite <- Hperm; by left|].
      simpl. by rewrite <- app_assoc, Hlen.
    + by rewrite <- app_assoc.
Qed.

Lemma consecutive_rows_touch (cols : list nat) :
  consecutive_rows_apart cols <-> no_markers_touch cols.
Proof.
  unfold consecutive_rows_apart, no_markers_touch, chebyshev. simpl. split.
  - intros H r1 r2 c1 c2 Hne H1 H2.
    destruct (decide (r2 = S r1)) as [->|]; [specialize (H r1 c1 c2 H1 H2); lia|].
    destruct (decide (r1 = S r2)) as [->|]; [specialize (H r2 c2 c1 H2 H1); lia|].
    lia.
  - intros H r c1 c2 H1 H2. specialize (H r (S r) c1 c2). 
    assert (r <> S r) as Hne by lia. specialize (H Hne H1 H2). lia.
Qed.

(** ** Runs do not depend on what happened before *)

Lemma uniform_ret {A} (a : A) : uniform (ret a).
Proof. intros t. unfold ret. simpl. by rewrite app_nil_r. Qed.

Lemma uniform_raise {A} (e : exn) : uniform (raise (A := A) e).
Proof. intros t. unfold raise. simpl. by rewrite app_nil_r. Qed.

Lemma uniform_emit (e : event) : uniform (emit e).
Proof. intros t. reflexivity. Qed.

Lemma uniform_bind {A B} (m : M A) (k : A -> M B) :
  uniform m -> (forall a, uniform (k a)) -> uniform (m ≫= k).
Proof.
  intros Hm Hk t. rewrite !run_bind, (Hm t).
  destruct (m []) as [[a|e|] evs]; simpl; [|done..].
  rewrite (Hk a (t ++ evs)), (Hk a evs). simpl. by rewrite app_assoc.
Qed.

Lemma uniform_mapM {A B} (f : A -> M B) (xs : list A) :
  (forall x, uniform (f x)) -> uniform (mapM f xs).
Proof.
  intros Hf. induction xs as [|x xs IH]; [apply uniform_ret|].
  rewrite mapM_cons. apply uniform_bind; [done|]. intros y.
  apply uniform_bind; [done|]. intros ys. apply uniform_ret.
Qed.

Lemma uniform_solve (s : Solver) : uniform (solve s).
Proof.
  unfold solve. destruct (pending s);
    (apply uniform_bind; [apply uniform_emit|intros; apply uniform_ret]).
Qed.

Lemma uniform_get_value (s : Solver) (x : nat) : uniform (get_value s x).
Proof.
  unfold get_value. destruct (current s ≫= _); [apply uniform_ret|apply uniform_raise].
Qed.

Lemma uniform_index {A} (xs : list A) (i : nat) : uniform (index xs i).
Proof. unfold index. destruct (xs !! i); [apply uniform_ret|apply uniform_raise]. Qed.

Lemma uniform_count_solutions (fuel : nat) (s : Solver) (count : nat) :
  uniform (count_solutions fuel s count).
Proof.
  revert s count. induction fuel as [|fuel IH]; intros s count.
  - intros t. simpl. by rewrite app_nil_r.
  - cbn [count_solutions]. apply uniform_bind; [apply uniform_solve|].
    intros [[] s']; [apply IH|apply uniform_ret].
Qed.

Lemma uniform_parse_board_from_txt fs path : uniform (parse_board_from_txt fs path).
Proof.
  unfold parse_board_from_txt. apply uniform_bind; [apply uniform_emit|]. intros _.
  destruct (fs path); [|apply uniform_raise].
  case_decide; [apply uniform_raise|apply uniform_ret].
Qed.

Lemma uniform_solve_puzzle `{ChocoSolver} fs fuel path mx :
  uniform (solve_puzzle fs fuel path mx).
Proof.
  rewrite solve_puzzle_steps. apply uniform_bind.
  - unfold load_puzzle. destruct path, mx;
      auto using uniform_ret, uniform_raise, uniform_parse_board_from_txt.
  - intros m. cbn zeta. apply uniform_bind.
    + apply uniform_mapM. intros cells. unfold region_constraint.
      apply uniform_bind; [|intros; apply uniform_ret].
      apply uniform_mapM. intros [r c].
      apply uniform_bind; [apply uniform_index|intros; apply uniform_index].
    + intros r3. unfold search. apply uniform_bind; [apply uniform_solve|].
      intros [found s]. apply uniform_bind.
      * apply uniform_mapM. intros r.
        apply uniform_bind; [apply uniform_get_value|intros; apply uniform_ret].
      * intros first. apply uniform_bind; [apply uniform_count_solutions|].
        intros; apply uniform_ret.
Qed.

(** ** Another representation of the labels *)

Lemma length_relabel (f : label -> label) (m : matrix) :
  length (relabel f m) = length m.
Proof. apply length_fmap. Qed.

Lemma enumerate_fmap {A B} (f : A -> B) (l : list A) :
  enumerate (f <$> l) = prod_map id f <$> enumerate l.
Proof.
  unfold enumerate. rewrite length_fmap. generalize (seq 0 (length l)) as idx.
  induction l as [|x l IH]; intros [|i idx]; try done.
  rewrite !fmap_cons. cbn [zip_with]. rewrite fmap_cons. by rewrite IH.
Qed.

Lemma labelled_cells_relabel (f : label -> label) (m : matrix) :
  labelled_cells (relabel f m) = prod_map f id <$> labelled_cells m.
Proof.
  unfold labelled_cells, relabel.
  rewrite enumerate_fmap, list_fmap_bind.
  induction (enumerate m) as [|[r row] rows IH]; [done|]. csimpl.
  rewrite fmap_app, IH. f_equal.
  rewrite enumerate_fmap, <- !list_fmap_compose.
  apply list_fmap_ext. by intros ? [c val].
Qed.

Section relabel.
Context (f : label -> label) `{!Inj (=) (=) f}.

Lemma regions_add_relabel (val : label) (rc : cell) (d : regions_dict) :
  regions_add (f val) rc (prod_map f id <$> d) =
  prod_map f id <$> regions_add val rc d.
Proof.
  induction d as [|[k cells] d IH]; [done|].
  rewrite fmap_cons. cbn [regions_add prod_map fst snd id].
  destruct (decide (k = val)) as [->|Hne].
  - by rewrite decide_True.
  - rewrite decide_False by (intros ?%(inj f); done).
    by rewrite IH.
Qed.

Lemma add_all_relabel (cells : list (label * cell)) (d : regions_dict) :
  add_all (prod_map f id <$> cells) (prod_map f id <$> d) =
  prod_map f id <$> add_all cells d.
Proof.
  revert d. induction cells as [|[val rc] cells IH]; intros d; [done|].
  rewrite fmap_cons, !add_all_cons. simpl. by rewrite regions_add_relabel, IH.
Qed.

Lemma get_puzzle_regions_relabel (m : matrix) :
  values (get_puzzle_regions (relabel f m)) = values (get_puzzle_regions m).
Proof.
  rewrite !get_puzzle_regions_add_all, labelled_cells_relabel.
  change (@nil (label * list cell)) with (prod_map f id <$> @nil (label * list cell)) at 1.
  rewrite add_all_relabel. unfold values. rewrite <- list_fmap_compose.
  apply list_fmap_ext. by intros ? [k cells].
Qed.

End relabel.

Lemma search_answer `{ChocoSolver} fuel (puzzle1 puzzle2 : matrix) model t :
  prod_map answer id (search fuel puzzle1 model t) =
  prod_map answer id (search fuel puzzle2 model t).
Proof.
  unfold search. rewrite !run_bind.
  destruct (solve (get_solver model) t) as [[[found s]|e|] t1]; [|done..].
  rewrite !run_bind. destruct (mapM _ _ t1) as [[first|e|] t2]; [|done..].
  rewrite !run_bind. by destruct (count_solutions fuel s 1 t2) as [[count|e|] t3].
Qed.

Lemma solve_puzzle_relabel `{ChocoSolver} fs fuel path (f : label -> label)
    `{!Inj (=) (=) f} (m : matrix) t :
  prod_map answer id (solve_puzzle fs fuel path (Some (relabel f m)) t) =
  prod_map answer id (solve_puzzle fs fuel path (Some m) t).
Proof.
  rewrite !solve_puzzle_steps.
  erewrite (run_bind_returned _ _ t (relabel f m)); [|by destruct path].
  erewrite (run_bind_returned _ _ t m); [|by destruct path].
  cbn zeta. rewrite get_puzzle_regions_relabel by done.
  rewrite !length_relabel, !run_bind.
  destruct (mapM _ _ t) as [[r3|e|] t1]; [|done..].
  apply search_answer.
Qed.

(** ** The check of the parser *)

Lemma distinct_row_lengths_one (rows : matrix) :
  distinct_row_lengths rows = 1 <-> consistent_rows rows.
Proof.
  unfold distinct_row_lengths, consistent_rows. split.
  - intros Hsize. apply size_1_elem_of in Hsize as [n Hn]. split.
    + intros ->. simpl in Hn. set_solver.
    + intros r1 r2 H1 H2.
      assert (length r1 ∈ (list_to_set (length <$> rows) : gset nat)) as Hr1
        by (apply elem_of_list_to_set, list_elem_of_fmap; eauto).
      assert (length r2 ∈ (list_to_set (length <$> rows) : gset nat)) as Hr2
        by (apply elem_of_list_to_set, list_elem_of_fmap; eauto).
      rewrite Hn in Hr1, Hr2. set_solver.
  - intros [Hne Hsame]. destruct rows as [|r rows]; [done|].
    assert ((list_to_set (length <$> r :: rows) : gset nat) ≡ {[ length r ]}) as ->.
    { intros n. rewrite elem_of_list_to_set, list_elem_of_fmap, elem_of_singleton.
      split.
      - intros (r' & -> & Hr'). apply Hsame; [done|by left].
      - intros ->. exists r. split; [done|by left]. }
    apply size_singleton.
Qed.

Lemma run_bind_raised_inv {A B} (m : M A) (k : A -> M B) t e t' :
  (m ≫= k) t = (Raised e, t') ->
  m t = (Raised e, t') \/
  exists a t1, m t = (Returned a, t1) /\ k a t1 = (Raised e, t').
Proof.
  rewrite run_bind. destruct (m t) as [[a|e1|] t1]; [eauto|intros [= -> ->]; eauto|done].
Qed.

Lemma mapM_raised_inv {A B} (f : A -> M B) (xs : list A) t e t' :
  mapM f xs t = (Raised e, t') ->
  exists x t1, x ∈ xs /\ f x t1 = (Raised e, t').
Proof.
  revert t. induction xs as [|x xs IH]; intros t; [done|]. rewrite mapM_cons.
  intros [Hx|(y & t1 & _ & Hrest)]%run_bind_raised_inv.
  - exists x, t. split; [by left|done].
  - apply run_bind_raised_inv in Hrest as [Hrest|(ys & t2 & _ & Hret)]; [|done].
    apply IH in Hrest as (x' & t2 & Hin & Hx'). exists x', t2. split; [by right|done].
Qed.

(** Building the model raises nothing but [IndexError]. *)
Lemma region_constraints_raised (n : nat) (regions : list (list cell)) t e t' :
  mapM (region_constraint n) regions t = (Raised e, t') -> e = IndexError.
Proof.
  intros (cells & t1 & _ & Hcells)%mapM_raised_inv. unfold region_constraint in Hcells.
  apply run_bind_raised_inv in Hcells as [Hcells|(bools & t2 & _ & Hret)]; [|done].
  apply mapM_raised_inv in Hcells as ([r c] & t2 & _ & Hrc).
  apply run_bind_raised_inv in Hrc as [Hrow|(row & t3 & _ & Hcol)].
  - unfold index in Hrow. destruct (_ !! r); [done|]. by injection Hrow as <- _.
  - unfold index in Hcol. destruct (_ !! c); [done|]. by injection Hcol as <- _.
Qed.

(** The search raises nothing but the failed assertion of [get_value]. *)
Lemma search_raised `{ChocoSolver} fuel puzzle model t e t' :
  search fuel puzzle model t = (Raised e, t') ->
  e = AssertionError not_instantiated.
Proof.
  unfold search.
  intros [Hsolve|([found s] & t1 & _ & Hrest)]%run_bind_raised_inv.
  { unfold solve in Hsolve. by destruct (pending _). }
  apply run_bind_raised_inv in Hrest as [Hfirst|(first & t2 & _ & Hrest)].
  - apply mapM_raised_inv in Hfirst as (r & t2 & _ & Hr).
    apply run_bind_raised_inv in Hr as [Hr|(v & t3 & _ & Hret)]; [|done].
    unfold get_value in Hr. destruct (current s ≫= _); [done|]. by injection Hr as <- _.
  - apply run_bind_raised_inv in Hrest as [Hcount|(count & t3 & _ & Hret)]; [|done].
    destruct s as [pending cur]. rewrite count_solutions_run in Hcount.
    by destruct (decide (length pending < fuel)).
Qed.

(** A [ValueError] comes from the first statements of [solve_puzzle]. *)
Lemma solve_puzzle_ValueError `{ChocoSolver} fs fuel path mx t msg t' :
  solve_puzzle fs fuel path mx t = (Raised (ValueError msg), t') ->
  load_puzzle fs path mx t = (Raised (ValueError msg), t').
Proof.
  rewrite solve_puzzle_steps.
  intros [Hload|(m & t1 & _ & Hrest)]%run_bind_raised_inv; [done|]. cbn zeta in Hrest.
  apply run_bind_raised_inv in Hrest as [Hr3|(r3 & t2 & _ & Hsearch)].
  - by apply region_constraints_raised in Hr3.
  - by apply search_raised in Hsearch.
Qed.

Lemma parse_board_from_txt_run fs path text t :
  fs path = Some text ->
  parse_board_from_txt fs path t =
  (if decide (distinct_row_lengths (parse_rows (splitlines text)) <> 1)
   then Raised (ValueError inconsistent)
   else Returned (parse_rows (splitlines text)),
   t ++ [EvReadText path]).
Proof.
  intros Hfs. unfold parse_board_from_txt.
  erewrite run_bind_returned; [|reflexivity]. rewrite Hfs. by case_decide.
Qed.

(** The whitespace that is not ASCII separates fields and lines as the
    ASCII whitespace does. *)
Lemma parse_text_nbsp :
  parse_rows (splitlines text_nbsp) = map (map LStr) [["a"; "b"]; ["c"; "d"]].
Proof. reflexivity. Qed.

Lemma splitlines_next_line :
  splitlines ("0" +:+ String NEL "1") = ["0"; "1"].
Proof. reflexivity. Qed.

Lemma strip_nbsp : strip (String NBSP "Q" +:+ String NBSP "") = "Q".
Proof. reflexivity. Qed.

#[global] Instance tag_inj : Inj (=) (=) tag.
Proof.
  intros [s1|z1] [s2|z2] Heq; simpl in Heq; try congruence.
  injection Heq as Heq. f_equal. lia.
Qed.

Lemma markers_snd (cols : list nat) : (markers cols).*2 = cols.
Proof. apply enumerate_snd. Qed.

(** ** Boards that are not square *)

Lemma rows_fit_cells (m : matrix) (rc : cell) :
  rows_fit m -> rc ∈ all_cells m -> rc.1 < length m /\ rc.2 < length m.
Proof.
  intros Hrows [l Hl]%elem_of_all_cells. destruct rc as [r c].
  unfold label_at in Hl. simpl in *.
  destruct (m !! r) as [row|] eqn:Hrow; [|done]. simpl in Hl.
  split; [by eapply lookup_lt_Some|].
  unfold rows_fit in Hrows. rewrite Forall_forall in Hrows.
  apply lookup_lt_Some in Hl.
  assert (length row <= length m) by (apply Hrows; by eapply list_elem_of_lookup_2).
  lia.
Qed.

Lemma region_cells_in_grid (m : matrix) (cells : list cell) (rc : cell) :
  cells ∈ values (get_puzzle_regions m) -> rc ∈ cells -> rc ∈ all_cells m.
Proof.
  intros Hcells Hrc.
  destruct (regions_partition m) as (_ & _ & _ & _ & Hperm & _).
  rewrite <- Hperm. apply list_elem_of_join. eauto.
Qed.

Lemma rule3_returned_fit (m : matrix) (t : trace) :
  rows_fit m ->
  mapM (region_constraint (length m)) (values (get_puzzle_regions m)) t =
  (Returned (rule3 (get_puzzle_regions m)), t).
Proof.
  intros Hm. apply mapM_returned. intros cells Hin.
  apply region_constraint_returned, Forall_forall. intros rc Hrc.
  apply rows_fit_cells; [done|]. by eapply region_cells_in_grid.
Qed.

Lemma solve_puzzle_fit `{ChocoSolver} fs fuel path (m : matrix) (t : trace) :
  rows_fit m ->
  solve_puzzle fs fuel path (Some m) t = search fuel m (board_model m) t.
Proof.
  intros Hm. rewrite solve_puzzle_steps.
  erewrite run_bind_returned; [|by destruct path]. cbn zeta.
  erewrite run_bind_returned; [|by apply rule3_returned_fit]. done.
Qed.

Lemma region_constraint_index_error (n : nat) (cells : list cell) (t : trace) :
  Forall (fun rc => rc.1 < n) cells ->
  (exists rc, rc ∈ cells /\ n <= rc.2) ->
  region_constraint n cells t = (Raised IndexError, t).
Proof.
  intros Hrows Hwide. unfold region_constraint.
  erewrite run_bind_raised; [done|]. apply mapM_raised.
  - intros [r c] Hin. rewrite Forall_forall in Hrows. specialize (Hrows _ Hin).
    simpl in Hrows. destruct (decide (c < n)).
    + left. eexists. by apply cell_has_queen_index.
    + right. apply cell_has_queen_index_error. lia.
  - destruct Hwide as ([r c] & Hin & Hc). exists (r, c). split; [done|].
    by apply cell_has_queen_index_error.
Qed.

Lemma region_constraint_cases (n : nat) (cells : list cell) (t : trace) :
  Forall (fun rc => rc.1 < n) cells ->
  region_constraint n cells t = (Returned (SumEq cells 1), t) \/
  region_constraint n cells t = (Raised IndexError, t).
Proof.
  intros Hrows. destruct (decide (Forall (fun rc : cell => rc.2 < n) cells)) as [Hfit|Hwide].
  - left. apply region_constraint_returned. rewrite Forall_forall in *.
    intros rc Hrc. split; [by apply Hrows|by apply Hfit].
  - right. apply region_constraint_index_error; [done|].
    apply not_Forall_Exists in Hwide; [|apply _]. apply Exists_exists in Hwide.
    destruct Hwide as (rc & Hin & Hc). exists rc. split; [done|]. simpl in Hc. lia.
Qed.

Lemma solve_puzzle_wide `{ChocoSolver} fs fuel path (m : matrix) (t : trace) :
  ~ rows_fit m ->
  solve_puzzle fs fuel path (Some m) t = (Raised IndexError, t).
Proof.
  intros Hwide. rewrite solve_puzzle_steps.
  erewrite run_bind_returned; [|by destruct path]. cbn zeta.
  erewrite run_bind_raised; [done|].
  assert (forall cells rc, cells ∈ values (get_puzzle_regions m) -> rc ∈ cells ->
            rc.1 < length m) as Hrows.
  { intros cells rc Hcells Hrc.
    pose proof (region_cells_in_grid m cells rc Hcells Hrc) as [l Hl]%elem_of_all_cells.
    unfold label_at in Hl. destruct (m !! rc.1) eqn:Hrow; [|done].
    by eapply lookup_lt_Some. }
  apply mapM_raised.
  - intros cells Hcells.
    destruct (region_constraint_cases (length m) cells t) as [Hret|Hraise]; eauto.
    apply Forall_forall. intros rc Hrc. by eapply Hrows.
  - unfold rows_fit in Hwide. apply not_Forall_Exists in Hwide; [|apply _].
    apply Exists_exists in Hwide as (row & Hrow & Hlen). simpl in Hlen.
    apply list_elem_of_lookup in Hrow as [r Hr].
    destruct (lookup_lt_is_Some_2 row (length m)) as [k Hk]; [lia|].
    assert ((r, length m) ∈ all_cells m) as Hcell.
    { apply elem_of_all_cells. unfold label_at. simpl. rewrite Hr. simpl. by eexists. }
    destruct (regions_partition m) as (_ & _ & _ & _ & Hperm & _).
    rewrite <- Hperm in Hcell. apply list_elem_of_join in Hcell as (cells & Hrc & Hcells).
    exists cells. split; [done|]. apply region_constraint_index_error.
    + apply Forall_forall. intros rc' Hrc'. by eapply Hrows.
    + exists (r, length m). split; [done|]. simpl. lia.
Qed.

(** The sum posted for a region counts the markers on the cells of the
    region, on every board. *)
Lemma region_sum_any (m : matrix) (cols : list nat) (k : label) :
  sum_list_with (bool_value cols)
    (filter (fun rc => label_at m rc = Some k) (all_cells m)) =
  length (filter (fun rc => label_at m rc = Some k) (markers cols)).
Proof.
  unfold bool_value.
  rewrite (sum_list_with_indicator (fun rc => cols !! rc.1 = Some rc.2)).
  apply Permutation_length, NoDup_Permutation.
  - apply NoDup_filter, NoDup_filter, NoDup_all_cells.
  - apply NoDup_filter, NoDup_enumerate.
  - intros [r c]. rewrite !list_elem_of_filter. unfold markers.
    rewrite elem_of_enumerate. simpl. split; [tauto|].
    intros [HP Hin]. split_and!; [done..|]. apply elem_of_all_cells. by eexists.
Qed.

Lemma rule3_holds_any (m : matrix) (cols : list nat) :
  Forall (holds cols) (rule3 (get_puzzle_regions m)) <->
  one_marker_per_region m cols.
Proof.
  destruct (regions_partition m) as (Hkeys & Hlabels & Hcells & _).
  unfold rule3, values, one_marker_per_region.
  rewrite <- list_fmap_compose, Forall_fmap, Forall_forall. split.
  - intros H k Hk. apply Hlabels in Hk.
    apply list_elem_of_fmap in Hk as ([k' cells] & -> & Hin).
    specialize (H _ Hin). simpl in *. apply Hcells in Hin as [_ ->].
    by rewrite region_sum_any in H.
  - intros H [k cells] Hin. simpl. pose proof Hin as [_ ->]%Hcells.
    rewrite region_sum_any. apply H, Hlabels.
    apply list_elem_of_fmap.
    by exists (k, filter (fun rc => label_at m rc = Some k) (all_cells m)).
Qed.

Lemma satisfies_board_model_any (m : matrix) (cols : list nat) :
  satisfies (board_model m) cols <-> is_solution m cols.
Proof.
  unfold satisfies, is_solution, columns_distinct, board_model. simpl.
  rewrite Forall_cons, Forall_app, rule3_holds_any.
  split.
  - intros (Hlen & Hdom & H1 & H2 & H3).
    apply rule1_holds in H1; [|done]. apply rule2_holds in H2; [|done].
    split_and!; [done| |done..].
    destruct cols as [|c cols]; [done|]. simpl in Hlen.
    eapply Forall_impl; [exact Hdom|]. intros v Hv. simpl in Hv. lia.
  - intros ((Hlen & Hdom & H1) & H2 & H3).
    split_and!; [done| | | |done].
    + eapply Forall_impl; [exact Hdom|]. intros v Hv. simpl in Hv. lia.
    + by apply rule1_holds.
    + by apply rule2_holds.
Qed.

Lemma solutions_all_assignments_any `{ChocoSolver} (m : matrix) :
  solutions (board_model m) ≡ₚ all_assignments m.
Proof.
  apply NoDup_Permutation.
  - apply solutions_NoDup.
  - apply NoDup_all_assignments.
  - intros a. by rewrite solutions_spec, satisfies_board_model_any, elem_of_all_assignments.
Qed.

Lemma count_solutions_returned_inv fuel (s : Solver) count t res t' :
  count_solutions fuel s count t = (Returned res, t') ->
  res = count + length (pending s) /\
  t' = t ++ replicate (length (pending s)) (EvSolve true) ++ [EvSolve false].
Proof.
  destruct s as [pending cur]. rewrite count_solutions_run. simpl.
  destruct (decide (length pending < fuel)); [|done]. by intros [= <- <-].
Qed.

(** What a result of [search] is made of. *)
Lemma search_returned `{ChocoSolver} fuel puzzle model t res t' :
  0 < num_vars model ->
  search fuel puzzle model t = (Returned res, t') ->
  exists first others,
    solutions model = first :: others /\
    res = mkResult (S (length others)) puzzle (markers first) /\
    t' = t ++ replicate (S (length others)) (EvSolve true) ++ [EvSolve false].
Proof.
  unfold search, get_solver. intros Hn Hrun.
  destruct (solutions model) as [|first others] eqn:Hsol.
  - apply run_bind_returned_inv in Hrun as ([found s] & t1 & Hsolve & Hrun).
    injection Hsolve as _ <- _.
    apply run_bind_returned_inv in Hrun as (qs & t2 & Hfirst & _).
    by rewrite first_solution_raised in Hfirst.
  - assert (length first = num_vars model) as Hlen.
    { assert (first ∈ solutions model) as Ha by (rewrite Hsol; by left).
      by apply solutions_spec in Ha as [? _]. }
    apply run_bind_returned_inv in Hrun as ([found s] & t1 & Hsolve & Hrun).
    injection Hsolve as _ <- <-.
    apply run_bind_returned_inv in Hrun as (qs & t2 & Hfirst & Hrun).
    rewrite <- Hlen, first_solution_returned in Hfirst. injection Hfirst as <- <-.
    apply run_bind_returned_inv in Hrun as (count & t3 & Hcount & Hret).
    apply count_solutions_returned_inv in Hcount as [-> ->]. simpl in *.
    injection Hret as <- <-. exists first, others. split_and!; [done..|].
    by rewrite <- app_assoc.
Qed.

(** The trace of the first statements: the file read, if any. *)
Lemma load_puzzle_trace fs path mx t (m : matrix) t1 :
  load_puzzle fs path mx t = (Returned m, t1) -> t1 = t ++ reads path mx.
Proof.
  unfold load_puzzle, reads. destruct path as [p|], mx as [m'|]; simpl.
  - intros [= _ <-]. by rewrite app_nil_r.
  - unfold parse_board_from_txt.
    erewrite run_bind_returned; [|reflexivity].
    destruct (fs p); [|done]. case_decide; [done|]. by intros [= _ <-].
  - intros [= _ <-]. by rewrite app_nil_r.
  - done.
Qed.

(** The facts about a result that is returned, on any board. *)
Lemma solve_puzzle_returned_facts `{ChocoSolver} fs fuel path mx t res t' :
  solve_puzzle fs fuel path mx t = (Returned res, t') ->
  initial_board res <> [] ->
  let m := initial_board res in
  let cols := (queens res).*2 in
  rows_fit m /\
  queens res = markers cols /\
  is_solution m cols /\
  number_of_solutions res = length (all_assignments m) /\
  t' = t ++ reads path mx ++ replicate (number_of_solutions res) (EvSolve true)
         ++ [EvSolve false].
Proof.
  intros Hrun Hne m cols. subst m cols.
  apply solve_puzzle_returned_inv in Hrun as (t1 & Hload & Hrun).
  apply load_puzzle_trace in Hload as ->.
  destruct res as [count board qs]. simpl in *.
  destruct (decide (rows_fit board)) as [Hfit|Hwide];
    [|by rewrite solve_puzzle_wide in Hrun].
  rewrite solve_puzzle_fit in Hrun by done.
  apply search_returned in Hrun as (first & others & Hsol & [= -> ->] & ->);
    [|simpl; destruct board; [done|simpl; lia]].
  pose proof (solutions_all_assignments_any board) as Hperm.
  rewrite Hsol in Hperm. rewrite markers_snd.
  split_and!; [done..| | |by rewrite <- app_assoc].
  - apply elem_of_all_assignments. rewrite <- Hperm. by left.
  - by rewrite <- Hperm.
Qed.

(** ** Strings written and read back *)

Lemma append_cons (c : ascii) (s1 s2 : string) :
  String c s1 +:+ s2 = String c (s1 +:+ s2).
Proof. reflexivity. Qed.

Lemma append_nil_l (s : string) : "" +:+ s = s.
Proof. reflexivity. Qed.

Lemma append_nil_r (s : string) : s +:+ "" = s.
Proof. induction s as [|c s IH]; [done|]. by rewrite append_cons, IH. Qed.

Lemma append_assoc (s1 s2 s3 : string) : (s1 +:+ s2) +:+ s3 = s1 +:+ (s2 +:+ s3).
Proof. induction s1 as [|c s1 IH]; [done|]. by rewrite !append_cons, IH. Qed.


Lemma rev_snoc (s : string) (c : ascii) : PyStr.rev (snoc s c) = String c (PyStr.rev s).
Proof.
  induction s as [|c' s IH]; [done|].
  unfold snoc in *. rewrite append_cons. simpl. by rewrite IH.
Qed.

Lemma rev_involutive (s : string) : PyStr.rev (PyStr.rev s) = s.
Proof. induction s as [|c s IH]; [done|]. simpl. by rewrite rev_snoc, IH. Qed.

Lemma string_forall_append P (s1 s2 : string) :
  string_forall P (s1 +:+ s2) = string_forall P s1 && string_forall P s2.
Proof.
  induction s1 as [|c s1 IH]; [done|]. rewrite append_cons. simpl.
  by rewrite IH, andb_assoc.
Qed.

Lemma string_forall_rev P (s : string) :
  string_forall P (PyStr.rev s) = string_forall P s.
Proof.
  induction s as [|c s IH]; [done|]. simpl. unfold snoc.
  rewrite string_forall_append, IH. simpl. rewrite andb_true_r. apply andb_comm.
Qed.



























(** ** Blank lines *)

Lemma rev_eq_nil (s : string) : PyStr.rev s = "" -> s = "".
Proof. destruct s as [|c s]; [done|]. simpl. unfold snoc. by destruct (PyStr.rev s). Qed.

Lemma rev_append (s1 s2 : string) :
  PyStr.rev (s1 +:+ s2) = PyStr.rev s2 +:+ PyStr.rev s1.
Proof.
  induction s1 as [|c s1 IH].
  - by rewrite append_nil_l, append_nil_r.
  - rewrite append_cons. simpl. unfold snoc. by rewrite IH, append_assoc.
Qed.

Lemma lstrip_empty (s : string) :
  lstrip s = "" <-> string_forall isspace s = true.
Proof.
  induction s as [|c s IH]; [done|]. simpl. destruct (isspace c); [done|]. by split.
Qed.

Lemma lstrip_all_space (s : string) :
  string_forall isspace (lstrip s) = true -> lstrip s = "".
Proof.
  induction s as [|c s IH]; [done|]. simpl. destruct (isspace c) eqn:Hc; [done|].
  simpl. by rewrite Hc.
Qed.

(** A line is skipped exactly when all its characters are whitespace. *)
Lemma strip_empty (s : string) :
  strip s = "" <-> string_forall isspace s = true.
Proof.
  unfold strip, rstrip. split.
  - intros H%rev_eq_nil. apply lstrip_empty in H. rewrite string_forall_rev in H.
    by apply lstrip_empty, lstrip_all_space.
  - intros H%lstrip_empty. by rewrite H.
Qed.

Lemma lstrip_split (s : string) :
  exists ws, string_forall isspace ws = true /\ s = ws +:+ lstrip s.
Proof.
  induction s as [|c s (ws & Hws & IH)]; [by exists ""|]. simpl.
  destruct (isspace c) eqn:Hc; [|by exists ""].
  exists (String c ws). simpl. rewrite Hc, Hws. split; [done|].
  by rewrite append_cons, <- IH.
Qed.

Lemma rstrip_split (s : string) :
  exists ws, string_forall isspace ws = true /\ s = rstrip s +:+ ws.
Proof.
  destruct (lstrip_split (PyStr.rev s)) as (ws & Hws & Hs).
  exists (PyStr.rev ws). split; [by rewrite string_forall_rev|].
  unfold rstrip. by rewrite <- rev_append, <- Hs, rev_involutive.
Qed.

Lemma count_rows_cons (ln : string) (lines : list string) :
  count_rows (ln :: lines) =
  (if string_forall isspace ln then 0 else 1) + count_rows lines.
Proof.
  unfold count_rows. rewrite filter_cons.
  destruct (string_forall isspace ln) eqn:Hln.
  - apply strip_empty in Hln. by rewrite decide_False by (by intros ?).
  - rewrite decide_True; [done|]. intros H%strip_empty. congruence.
Qed.

Lemma length_parse_rows (lines : list string) :
  length (parse_rows lines) = count_rows lines.
Proof.
  induction lines as [|ln lines IH]; [done|]. rewrite count_rows_cons. simpl.
  destruct (decide (strip ln = "")) as [Hb|Hb].
  - apply strip_empty in Hb. by rewrite Hb.
  - simpl. rewrite IH. destruct (string_forall isspace ln) eqn:Hln; [|done].
    by apply strip_empty in Hln.
Qed.

Lemma splitlines_from_nil (cur : string) :
  count_rows (splitlines_from cur "") = if string_forall isspace cur then 0 else 1.
Proof.
  simpl. destruct (decide (cur = "")) as [->|Hne]; [done|].
  by rewrite count_rows_cons, Nat.add_0_r.
Qed.

Lemma string_forall_snoc P (cur : string) (c : ascii) :
  string_forall P (snoc cur c) = string_forall P cur && P c.
Proof. unfold snoc. rewrite string_forall_append. simpl. by rewrite andb_true_r. Qed.

(** Only whether the line being read is blank matters. *)
Lemma count_rows_cur (cur1 cur2 s : string) :
  string_forall isspace cur1 = string_forall isspace cur2 ->
  count_rows (splitlines_from cur1 s) = count_rows (splitlines_from cur2 s).
Proof.
  revert cur1 cur2. induction s as [|c s IH]; intros cur1 cur2 Hcur.
  - by rewrite !splitlines_from_nil, Hcur.
  - cbn [splitlines_from]. destruct (islinebreak c).
    + destruct s as [|c' s']; [|destruct (decide (c = CR /\ c' = LF))];
        by rewrite !count_rows_cons, Hcur.
    + apply IH. by rewrite !string_forall_snoc, Hcur.
Qed.

Lemma count_rows_space (c : ascii) (s : string) :
  isspace c = true ->
  count_rows (splitlines_from "" (String c s)) = count_rows (splitlines_from "" s).
Proof.
  intros Hc. cbn [splitlines_from]. destruct (islinebreak c) eqn:Hlb.
  - destruct s as [|c' s']; [done|].
    destruct (decide (c = CR /\ c' = LF)) as [[_ ->]|_]; [|by rewrite count_rows_cons].
    rewrite count_rows_cons. simpl string_forall. cbn [splitlines_from].
    assert (islinebreak LF = true) as -> by done.
    destruct s' as [|c'' s'']; [done|].
    destruct (decide (LF = CR /\ c'' = LF)) as [[? _]|_]; [done|].
    by rewrite count_rows_cons.
  - apply count_rows_cur. rewrite string_forall_snoc. simpl. by rewrite Hc.
Qed.

Lemma count_rows_lstrip (s : string) :
  count_rows (splitlines_from "" (lstrip s)) = count_rows (splitlines_from "" s).
Proof.
  induction s as [|c s IH]; [done|]. simpl lstrip.
  destruct (isspace c) eqn:Hc; [|done]. by rewrite IH, count_rows_space.
Qed.

Lemma count_rows_all_space (cur ws : string) :
  string_forall isspace ws = true ->
  count_rows (splitlines_from cur ws) = if string_forall isspace cur then 0 else 1.
Proof.
  revert cur. induction ws as [|c ws IH]; intros cur Hws.
  - apply splitlines_from_nil.
  - simpl in Hws. apply andb_true_iff in Hws as [Hc Hws].
    assert (count_rows (splitlines_from "" ws) = 0) as H0 by (by rewrite IH).
    cbn [splitlines_from]. destruct (islinebreak c) eqn:Hlb.
    + destruct ws as [|c' ws'].
      { by rewrite count_rows_cons, Nat.add_0_r. }
      simpl in Hws. apply andb_true_iff in Hws as [Hc' Hws'].
      rewrite count_rows_space in H0 by done.
      destruct (decide (c = CR /\ c' = LF)); rewrite count_rows_cons.
      * by rewrite H0, Nat.add_0_r.
      * rewrite count_rows_space by done. by rewrite H0, Nat.add_0_r.
    + rewrite IH by done. rewrite string_forall_snoc, Hc. by rewrite andb_true_r.
Qed.

Lemma count_rows_append_space (n : nat) (cur s ws : string) :
  String.length s <= n -> string_forall isspace ws = true ->
  count_rows (splitlines_from cur (s +:+ ws)) = count_rows (splitlines_from cur s).
Proof.
  revert cur s. induction n as [|n IH]; intros cur s Hlen Hws.
  - destruct s; [|simpl in Hlen; lia]. rewrite append_nil_l.
    by rewrite count_rows_all_space, splitlines_from_nil.
  - destruct s as [|c s].
    { rewrite append_nil_l. by rewrite count_rows_all_space, splitlines_from_nil. }
    simpl in Hlen. rewrite append_cons. cbn [splitlines_from].
    destruct (islinebreak c) eqn:Hlb; [|apply IH; [lia|done]].
    destruct s as [|c' s'].
    + rewrite append_nil_l.
      assert (count_rows (splitlines_from "" ws) = 0) as H0
        by (by rewrite count_rows_all_space).
      destruct ws as [|w ws']; [done|].
      simpl in Hws. apply andb_true_iff in Hws as [Hw Hws'].
      rewrite count_rows_space in H0 by done.
      destruct (decide (c = CR /\ w = LF)); rewrite !count_rows_cons.
      * by rewrite H0.
      * rewrite count_rows_space by done. by rewrite H0.
    + rewrite append_cons. simpl in Hlen.
      destruct (decide (c = CR /\ c' = LF)); rewrite !count_rows_cons; f_equal.
      * apply IH; [lia|done].
      * rewrite <- append_cons. apply IH; [simpl; lia|done].
Qed.

Lemma count_rows_rstrip (s : string) :
  count_rows (splitlines_from "" (rstrip s)) = count_rows (splitlines_from "" s).
Proof.
  destruct (rstrip_split s) as (ws & Hws & Hs). rewrite Hs at 2.
  symmetry. by eapply count_rows_append_space.
Qed.

(** ** Queens placed on the board *)

Lemma label_at_set_cell (m : matrix) (rc rc' : cell) (new : label) :
  is_Some (label_at m rc) ->
  label_at (set_cell m rc new) rc' =
  if decide (rc' = rc) then Some new else label_at m rc'.
Proof.
  destruct rc as [r c], rc' as [r' c']. unfold label_at, set_cell. simpl.
  destruct (m !! r) as [row|] eqn:Hrow; simpl; [|by intros [? ?]].
  intros Hc%lookup_lt_is_Some. pose proof (lookup_lt_Some _ _ _ Hrow) as Hr.
  destruct (decide (r' = r)) as [->|Hr'].
  - rewrite list_lookup_insert_eq by done. simpl.
    destruct (decide (c' = c)) as [->|Hc'].
    + rewrite list_lookup_insert_eq by done. by rewrite decide_True.
    + rewrite list_lookup_insert_ne by done. rewrite Hrow. simpl.
      by rewrite decide_False by congruence.
  - rewrite list_lookup_insert_ne by done.
    by rewrite decide_False by congruence.
Qed.

Lemma shape_set_cell (m : matrix) (rc : cell) (new : label) :
  length <$> set_cell m rc new = length <$> m.
Proof.
  unfold set_cell. destruct (m !! rc.1) as [row|] eqn:Hrow; [|done].
  rewrite list_fmap_insert, length_insert.
  apply list_insert_id. by rewrite list_lookup_fmap, Hrow.
Qed.

Lemma mark_queen_run (m : matrix) (rc : cell) (t : trace) :
  mark_queen m rc t =
  match label_at m rc with
  | Some old => (Returned (set_cell m rc (with_queen old)), t)
  | None => (Raised IndexError, t)
  end.
Proof.
  unfold mark_queen, label_at, set_cell, index.
  destruct (m !! rc.1) as [row|]; simpl; [|done].
  erewrite run_bind_returned; [|reflexivity].
  by destruct (row !! rc.2).
Qed.

Lemma place_queens_returned (m : matrix) (queens : list cell) (t : trace) :
  NoDup queens -> Forall (fun rc => is_Some (label_at m rc)) queens ->
  exists m',
    place_queens m queens t = (Returned m', t) /\
    length <$> m' = length <$> m /\
    forall rc, label_at m' rc =
      if decide (rc ∈ queens) then with_queen <$> label_at m rc
      else label_at m rc.
Proof.
  revert m. induction queens as [|q queens IH]; intros m Hnd Hon.
  - exists m. split_and!; [done..|]. intros rc.
    by rewrite decide_False by apply not_elem_of_nil.
  - apply NoDup_cons in Hnd as [Hq Hnd]. apply Forall_cons in Hon as [[old Hold] Hon].
    destruct (IH (set_cell m q (with_queen old)) Hnd) as (m' & Hrun & Hshape & Hcells).
    { eapply Forall_impl; [exact Hon|]. intros rc Hrc. simpl.
      rewrite label_at_set_cell by (by eexists). by case_decide. }
    exists m'. split_and!.
    + cbn [place_queens]. erewrite run_bind_returned; [exact Hrun|].
      by rewrite mark_queen_run, Hold.
    + by rewrite Hshape, shape_set_cell.
    + intros rc. rewrite Hcells, label_at_set_cell by (by eexists).
      destruct (decide (rc = q)) as [->|Hne].
      * rewrite decide_False by done. rewrite decide_True by (by left).
        by rewrite Hold.
      * destruct (decide (rc ∈ queens)) as [Hin|Hnin].
        -- by rewrite decide_True by (by right).
        -- rewrite decide_False; [done|]. by intros [?|?]%elem_of_cons.
Qed.

Lemma place_queens_raised (m : matrix) (queens : list cell) (t : trace) :
  (exists rc, rc ∈ queens /\ label_at m rc = None) ->
  place_queens m queens t = (Raised IndexError, t).
Proof.
  revert m. induction queens as [|q queens IH]; intros m (rc & Hin & Hoff).
  - by apply elem_of_nil in Hin.
  - cbn [place_queens]. destruct (label_at m q) as [old|] eqn:Hq.
    + erewrite run_bind_returned; [|by rewrite mark_queen_run, Hq].
      apply IH. apply elem_of_cons in Hin as [->|Hin]; [congruence|].
      exists rc. split; [done|].
      rewrite label_at_set_cell by (by eexists). case_decide; [congruence|done].
    + erewrite run_bind_raised; [done|]. by rewrite mark_queen_run, Hq.
Qed.

(** ** The layout of the drawing *)

Lemma edge_at_0 (outer grid base rem n : Z) :
  (0 <= rem)%Z -> (1 <= n)%Z -> edge_at outer grid base rem n 0 = outer.
Proof.
  intros Hrem Hn. unfold edge_at.
  rewrite (Z.min_l 0 rem), (Z.min_l 0 (n - 1)) by lia. lia.
Qed.

Lemma edge_at_succ (outer grid base rem n k : Z) :
  (0 <= k)%Z ->
  edge_at outer grid base rem n (k + 1) =
  (edge_at outer grid base rem n k
   + (base + (if decide (k < rem)%Z then 1 else 0))
   + (if decide (k < n - 1)%Z then grid else 0))%Z.
Proof.
  intros Hk. unfold edge_at.
  destruct (decide (k < rem)%Z), (decide (k < n - 1)%Z).
  - rewrite (Z.min_l k rem), (Z.min_l (k + 1) rem),
            (Z.min_l k (n - 1)), (Z.min_l (k + 1) (n - 1)) by lia. lia.
  - rewrite (Z.min_l k rem), (Z.min_l (k + 1) rem),
            (Z.min_r k (n - 1)), (Z.min_r (k + 1) (n - 1)) by lia. lia.
  - rewrite (Z.min_r k rem), (Z.min_r (k + 1) rem),
            (Z.min_l k (n - 1)), (Z.min_l (k + 1) (n - 1)) by lia. lia.
  - rewrite (Z.min_r k rem), (Z.min_r (k + 1) rem),
            (Z.min_r k (n - 1)), (Z.min_r (k + 1) (n - 1)) by lia. lia.
Qed.

Lemma edges_step (x : list Z) (v grid : Z) :
  <[length (x ++ [v]) - 1 := (last_item (x ++ [v]) + grid)%Z]> (x ++ [v]) =
  x ++ [(v + grid)%Z].
Proof.
  rewrite length_app. simpl. replace (length x + 1 - 1) with (length x + 0) by lia.
  rewrite insert_app_r. simpl. unfold last_item. by rewrite last_snoc.
Qed.

Lemma edges_closed (outer grid base rem n : Z) (k : nat) :
  (0 <= rem)%Z -> (1 <= n)%Z -> (Z.of_nat k <= n)%Z ->
  foldl (fun x c =>
           let x := x ++ [(last_item x + default 0 (cell_sizes base rem n !! Z.to_nat c))%Z] in
           if decide (c < n - 1)%Z
           then <[length x - 1 := (last_item x + grid)%Z]> x
           else x)
        [outer] (seqZ 0 (Z.of_nat k)) =
  (fun i : nat => edge_at outer grid base rem n (Z.of_nat i)) <$> seq 0 (S k).
Proof.
  intros Hrem Hn. induction k as [|k IH]; intros Hk.
  - simpl. by rewrite edge_at_0.
  - rewrite seqZ_S, foldl_app, IH by lia. cbn [foldl]. cbv zeta.
    rewrite (seq_S (S k)), fmap_app. cbn [fmap list_fmap].
    assert (last_item ((fun i : nat => edge_at outer grid base rem n (Z.of_nat i)) <$> seq 0 (S k))
            = edge_at outer grid base rem n (Z.of_nat k)) as Hlast.
    { rewrite seq_S, fmap_app. simpl. unfold last_item. by rewrite last_snoc. }
    assert (cell_sizes base rem n !! Z.to_nat (0 + Z.of_nat k) =
            Some (base + (if decide (Z.of_nat k < rem)%Z then 1 else 0))%Z) as ->.
    { unfold cell_sizes, range. rewrite list_lookup_fmap.
      replace (0 + Z.of_nat k)%Z with (Z.of_nat k) by lia. rewrite Nat2Z.id.
      rewrite lookup_seqZ_lt by lia. simpl. by rewrite Z.add_0_l. }
    simpl default. rewrite Hlast.
    replace (Z.of_nat (0 + S k)) with (Z.of_nat k + 1)%Z by lia.
    rewrite edge_at_succ by lia. replace (0 + Z.of_nat k)%Z with (Z.of_nat k) by lia.
    destruct (decide (Z.of_nat k < n - 1)%Z).
    + rewrite edges_step. do 2 f_equal.
    + do 2 f_equal. lia.
Qed.

Lemma edges_cell_sizes (outer grid base rem n : Z) :
  (0 <= rem)%Z -> (1 <= n)%Z ->
  edges outer grid n (cell_sizes base rem n) =
  (fun i : nat => edge_at outer grid base rem n (Z.of_nat i)) <$> seq 0 (S (Z.to_nat n)).
Proof.
  intros Hrem Hn. unfold edges, range.
  pose proof (edges_closed outer grid base rem n (Z.to_nat n) Hrem Hn) as H.
  rewrite Z2Nat.id in H by lia. apply H. lia.
Qed.

Lemma edge_at_last (size outer grid n : Z) :
  (1 <= n)%Z ->
  let usable := (size - 2 * outer - (n - 1) * grid)%Z in
  edge_at outer grid (usable / n) (usable `mod` n) n n = (size - outer)%Z.
Proof.
  intros Hn usable. unfold edge_at.
  pose proof (Z.mod_pos_bound usable n ltac:(lia)) as Hrem.
  pose proof (Z.div_mod usable n ltac:(lia)) as Hdiv.
  rewrite (Z.min_r n (usable `mod` n)), (Z.min_r n (n - 1)) by lia.
  subst usable. lia.
Qed.

Lemma edges_fill (size outer grid n : Z) :
  (1 <= n)%Z ->
  let usable := (size - 2 * outer - (n - 1) * grid)%Z in
  fills size outer grid n
        (edges outer grid n (cell_sizes (usable / n) (usable `mod` n) n)).
Proof.
  intros Hn usable.
  pose proof (Z.mod_pos_bound usable n ltac:(lia)) as Hrem.
  rewrite edges_cell_sizes by lia. unfold fills. split_and!.
  - by rewrite length_fmap, length_seq.
  - simpl. by rewrite edge_at_0 by lia.
  - rewrite seq_S, fmap_app. cbn [fmap list_fmap]. rewrite last_snoc. f_equal.
    rewrite Nat.add_0_l, Z2Nat.id by lia. by apply edge_at_last.
  - intros c a b Ha Hb. rewrite list_lookup_fmap in Ha, Hb.
    apply fmap_Some in Ha as (i & [-> Hi]%lookup_seq & ->).
    apply fmap_Some in Hb as (j & [-> Hj]%lookup_seq & ->). simpl.
    replace (Z.of_nat (S c)) with (Z.of_nat c + 1)%Z by lia.
    rewrite edge_at_succ by lia. fold usable.
    destruct (decide (Z.of_nat c < usable `mod` n)%Z),
             (decide (Z.of_nat c < n - 1)%Z); lia.
Qed.

(** ** The colour of a cell *)

Lemma remove_id (old : ascii) (s : string) :
  contains old s = false -> remove old s = s.
Proof.
  induction s as [|c s IH]; [done|]. simpl.
  destruct (decide (c = old)); [done|]. intros H. by rewrite IH.
Qed.

Lemma contains_remove (c old : ascii) (s : string) :
  contains c s = false -> contains c (remove old s) = false.
Proof.
  induction s as [|c' s IH]; [done|]. simpl.
  destruct (decide (c' = c)); [done|]. intros H.
  destruct (decide (c' = old)); [by apply IH|]. simpl.
  destruct (decide (c' = c)); [done|]. by apply IH.
Qed.

Lemma palette_key_with_queen (raw_val : label) :
  palette_key (with_queen raw_val) = palette_key raw_val.
Proof.
  unfold palette_key, with_queen. simpl str.
  change ("Q" +:+ str raw_val) with (String upper_q (str raw_val)).
  assert (contains upper_q (String upper_q (str raw_val)) = true) as ->
    by (cbn [contains]; by destruct (decide (upper_q = upper_q))).
  simpl orb. cbn [remove]. destruct (decide (upper_q = upper_q)); [|done].
  destruct (contains upper_q (str raw_val)) eqn:HQ; [done|].
  rewrite (remove_id upper_q) by done.
  destruct (contains lower_q (str raw_val)) eqn:Hq; [done|].
  by rewrite (remove_id lower_q).
Qed.

(** ** From the solver to the solution file *)





Lemma solution_on_board `{ChocoSolver} fs fuel path mx t res t' :
  solve_puzzle fs fuel path mx t = (Returned res, t') ->
  valid_board (initial_board res) ->
  NoDup (queens res) /\
  Forall (fun rc => is_Some (label_at (initial_board res) rc)) (queens res) /\
  forall r c, (r, c) ∈ queens res <-> (queens res).*2 !! r = Some c.
Proof.
  intros Hrun Hm.
  destruct (solve_puzzle_returned_facts _ _ _ _ _ _ _ Hrun) as (_ & Hq & Hsol & _).
  { destruct Hm as [Hn _]. intros Hnil. rewrite Hnil in Hn. simpl in Hn. lia. }
  destruct Hsol as ((Hlen & Hcols & _) & _). rewrite Hq. split_and!.
  - apply NoDup_enumerate.
  - apply Forall_forall. intros rc Hrc. apply elem_of_all_cells.
    by eapply markers_in_grid.
  - intros r c. rewrite markers_snd. apply elem_of_enumerate.
Qed.


(** ** The labels the parser gives *)

Lemma string_forall_lstrip P (s : string) :
  string_forall P s = true -> string_forall P (lstrip s) = true.
Proof.
  induction s as [|c s IH]; [done|]. simpl.
  intros [Hc Hs]%andb_true_iff. destruct (isspace c); [by apply IH|].
  simpl. by rewrite Hc, Hs.
Qed.

Lemma string_forall_strip P (s : string) :
  string_forall P s = true -> string_forall P (strip s) = true.
Proof.
  intros Hs. unfold strip, rstrip. rewrite string_forall_rev.
  apply string_forall_lstrip. rewrite string_forall_rev.
  by apply string_forall_lstrip.
Qed.

Lemma split_on_from_fields (cur s : string) :
  string_forall not_comma cur = true ->
  Forall (fun p => string_forall not_comma p = true) (split_on_from comma cur s).
Proof.
  revert cur. induction s as [|c s IH]; intros cur Hcur; simpl.
  - by constructor.
  - destruct (decide (c = comma)) as [->|Hc].
    + constructor; [done|]. by apply IH.
    + apply IH. rewrite string_forall_snoc, Hcur. unfold not_comma.
      by rewrite bool_decide_eq_false_2.
Qed.

Lemma split_from_fields P (cur s : string) :
  string_forall P cur = true -> string_forall P s = true ->
  Forall (fun p => string_forall P p = true) (split_from cur s).
Proof.
  revert cur. induction s as [|c s IH]; intros cur Hcur Hs; simpl.
  - destruct (decide (cur = "")); by repeat constructor.
  - simpl in Hs. apply andb_true_iff in Hs as [Hc Hs].
    destruct (isspace c).
    + destruct (decide (cur = "")); [by apply IH|]. constructor; [done|]. by apply IH.
    + apply IH; [|done]. by rewrite string_forall_snoc, Hcur, Hc.
Qed.

Lemma contains_false_inv (c : ascii) (s : string) :
  contains c s = false ->
  string_forall (fun c' => negb (bool_decide (c' = c))) s = true.
Proof.
  induction s as [|c' s IH]; [done|]. simpl.
  destruct (decide (c' = c)); [done|]. intros H.
  by rewrite bool_decide_eq_false_2, IH.
Qed.

Lemma parse_line_labels (line : string) : Forall parsed_label (parse_line line).
Proof.
  unfold parse_line. apply Forall_fmap, Forall_forall.
  intros p [Hne Hp]%list_elem_of_filter. exists p. split_and!; [done..|].
  destruct (contains comma line) eqn:Hcomma.
  - apply list_elem_of_fmap in Hp as (q & -> & Hq). apply string_forall_strip.
    pose proof (split_on_from_fields "" line eq_refl) as Hall.
    rewrite Forall_forall in Hall. by apply Hall.
  - pose proof (split_from_fields not_comma "" line eq_refl
                  (contains_false_inv _ _ Hcomma)) as Hall.
    rewrite Forall_forall in Hall. by apply Hall.
Qed.

Lemma parse_rows_labels (lines : list string) :
  Forall (Forall parsed_label) (parse_rows lines).
Proof.
  induction lines as [|line lines IH]; [by constructor|]. simpl.
  destruct (decide (strip line = "")); [done|].
  constructor; [apply parse_line_labels|done].
Qed.

(** * The claims *)

(** C1.  The claim asks for a result with count 0 and no first solution on a
    valid board that no assignment satisfies.  The code does not return there:
    the first [solver.solve()] answers [False], its answer is not looked at,
    and reading the values of [queen_col] raises. *)
Theorem solve_puzzle_no_solution `{ChocoSolver} fs fuel path (m : matrix) t :
  valid_board m -> all_assignments m = [] ->
  solve_puzzle fs fuel path (Some m) t =
  (Raised (AssertionError not_instantiated), t ++ [EvSolve false]).
Proof.
  intros Hm Hnone. pose proof (solve_puzzle_valid_board fs fuel path m t Hm) as Hrun.
  by rewrite Hnone in Hrun.
Qed.

Lemma solve_puzzle_no_solution_witness :
  solve_puzzle no_files 10 None (Some board2) [] =
  (Raised (AssertionError not_instantiated), [EvSolve false]).
Proof.
  apply (solve_puzzle_no_solution (H := LexSolver) no_files 10 None board2 []).
  - split; [simpl; lia|repeat constructor].
  - vm_compute. reflexivity.
Defined.



(** C3, as the code has it.  [parse_board_from_txt] raises [ValueError] when
    the rows read from the file (lines and fields cut at Python's line
    boundaries and whitespace, the next-line character and the no-break
    space among them) differ in length, or when there is no row (n = 0);
    [solve_puzzle] then raises it too, after the file is read and
    before any solver call, and a [ValueError] of [solve_puzzle] never comes
    later than that.  Rows of one length are accepted as they are, whatever
    their number. *)
Theorem malformed_board_raised_at_parsing `{ChocoSolver} fs fuel path text t :
  fs path = Some text ->
  let rows := parse_rows (splitlines text) in
  ((rows = [] \/
    exists r1 r2, r1 ∈ rows /\ r2 ∈ rows /\ length r1 <> length r2) ->
   parse_board_from_txt fs path t =
     (Raised (ValueError inconsistent), t ++ [EvReadText path]) /\
   solve_puzzle fs fuel (Some path) None t =
     (Raised (ValueError inconsistent), t ++ [EvReadText path])) /\
  (consistent_rows rows ->
   parse_board_from_txt fs path t = (Returned rows, t ++ [EvReadText path])) /\
  (forall mx msg t',
     solve_puzzle fs fuel (Some path) mx t = (Raised (ValueError msg), t') ->
     mx = None /\ t' = t ++ [EvReadText path]).
Proof.
  intros Hfs rows. subst rows.
  pose proof (parse_board_from_txt_run fs path text t Hfs) as Hparse.
  split_and!.
  - intros Hbad.
    assert (distinct_row_lengths (parse_rows (splitlines text)) <> 1) as Hne.
    { rewrite distinct_row_lengths_one. intros [Hrows Hsame].
      destruct Hbad as [?|(r1 & r2 & H1 & H2 & Hlen)]; [done|].
      by apply Hlen, Hsame. }
    rewrite decide_True in Hparse by done. split; [done|].
    rewrite solve_puzzle_steps. by erewrite run_bind_raised.
  - intros Hrows%distinct_row_lengths_one.
    by rewrite decide_False in Hparse by (by intros ?).
  - intros mx msg t' Hrun%solve_puzzle_ValueError.
    destruct mx as [m|]; [done|]. simpl in Hrun. split; [done|].
    rewrite Hparse in Hrun. by injection Hrun as _ <-.
Qed.

Lemma malformed_board_raised_at_parsing_witness :
  parse_board_from_txt (fun _ => Some text_ragged) "p.txt" [] =
    (Raised (ValueError inconsistent), [EvReadText "p.txt"]) /\
  solve_puzzle (fun _ => Some text_ragged) 10 (Some "p.txt") None [] =
    (Raised (ValueError inconsistent), [EvReadText "p.txt"]).
Proof.
  apply (malformed_board_raised_at_parsing (H := LexSolver)
           (fun _ => Some text_ragged) 10 "p.txt" text_ragged []).
  - reflexivity.
  - right. exists [LStr "0"; LStr "1"], [LStr "0"].
    split_and!; [vm_compute; by left|vm_compute; by right; left|simpl; lia].
Defined.

(** C3, the claim as it is worded, fails: a file of four rows of three
    fields is not square, and yet it is read without an error, the search
    runs and a result is returned (with a queen at column 3, off the
    grid). *)
Lemma nonsquare_grid_accepted :
  parse_board_from_txt (fun _ => Some text43) "p.txt" [] =
    (Returned board43, [EvReadText "p.txt"]) /\
  ~ valid_board board43 /\
  solve_puzzle (fun _ => Some text43) 10 (Some "p.txt") None [] =
    (Returned (mkResult 1 board43 [(0, 1); (1, 3); (2, 0); (3, 2)]),
     [EvReadText "p.txt"; EvSolve true; EvSolve false]).
Proof.
  split_and!.
  - vm_compute. reflexivity.
  - intros [_ Hrows]. by inversion Hrows.
  - vm_compute. reflexivity.
Qed.

(** C4.  The claim asks, for every valid board, for the number of assignments
    that satisfy the three rules.  Where there is at least one, the code
    returns that number: every solution is visited ([solver.solve()] answers
    [True] once for each, then [False]) and [queens] is the first one found.
    Where there is none, the code returns no count: it raises. *)
Theorem solve_puzzle_counts_all `{ChocoSolver} fs fuel path (m : matrix) t :
  valid_board m -> length (all_assignments m) <= fuel ->
  let total := length (all_assignments m) in
  (0 < total ->
   exists first, first ∈ all_assignments m /\
     solve_puzzle fs fuel path (Some m) t =
     (Returned (mkResult total m (markers first)),
      t ++ replicate total (EvSolve true) ++ [EvSolve false])) /\
  (total = 0 ->
   solve_puzzle fs fuel path (Some m) t =
   (Raised (AssertionError not_instantiated), t ++ [EvSolve false])).
Proof.
  intros Hm Hfuel total. subst total.
  pose proof (solve_puzzle_valid_board fs fuel path m t Hm) as Hrun.
  destruct (all_assignments m) as [|b others]; simpl in *.
  - split; [lia|done].
  - split; [|done]. intros _. by rewrite decide_True in Hrun by lia.
Qed.

Lemma solve_puzzle_counts_all_witness :
  (0 < 0 ->
   exists first, first ∈ all_assignments board2 /\
     solve_puzzle no_files 10 None (Some board2) [] =
     (Returned (mkResult 0 board2 (markers first)),
      [] ++ replicate 0 (EvSolve true) ++ [EvSolve false])) /\
  (0 = 0 ->
   solve_puzzle no_files 10 None (Some board2) [] =
   (Raised (AssertionError not_instantiated), [EvSolve false])).
Proof.
  apply (solve_puzzle_counts_all (H := LexSolver) no_files 10 None board2 []).
  - split; [simpl; lia|repeat constructor].
  - vm_compute. lia.
Defined.

(** C5.  The outcome of [solve_puzzle] on an input is the same whatever was
    run before (two runs give the same count and the same first solution),
    and it does not depend on how the labels are written: a board with the
    labels renamed one to one gives the same count, the same first solution
    and the same solver calls. *)
Theorem solve_puzzle_deterministic `{ChocoSolver} fs fuel path mx
    (f : label -> label) (m : matrix) t1 t2 :
  Inj (=) (=) f ->
  (solve_puzzle fs fuel path mx t1).1 = (solve_puzzle fs fuel path mx t2).1 /\
  prod_map answer id (solve_puzzle fs fuel path (Some (relabel f m)) t1) =
  prod_map answer id (solve_puzzle fs fuel path (Some m) t1).
Proof.
  intros Hf. split.
  - by rewrite (uniform_solve_puzzle fs fuel path mx t1),
               (uniform_solve_puzzle fs fuel path mx t2).
  - by apply solve_puzzle_relabel.
Qed.

Lemma solve_puzzle_deterministic_witness :
  (solve_puzzle no_files 10 None (Some board4) []).1 =
  (solve_puzzle no_files 10 None (Some board4) [EvSolve true; EvSolve false]).1 /\
  prod_map answer id (solve_puzzle no_files 10 None (Some (relabel tag board4)) []) =
  prod_map answer id (solve_puzzle no_files 10 None (Some board4) []).
Proof.
  apply (solve_puzzle_deterministic (H := LexSolver) no_files 10 None
           (Some board4) tag board4 [] [EvSolve true; EvSolve false]).
  apply tag_inj.
Defined.

(** On C6: which solution is the first one is the solver's choice.  The
    code sets no search strategy, and two solvers that both meet the
    contract give different first solutions on the same board. *)
Lemma first_solution_depends_on_solver :
  answer (solve_puzzle (H := LexSolver) no_files 10 None (Some board_blocks) []).1 =
    Returned (2, [(0, 1); (1, 3); (2, 0); (3, 2)]) /\
  answer (solve_puzzle (H := RevLexSolver) no_files 10 None (Some board_blocks) []).1 =
    Returned (2, [(0, 2); (1, 0); (2, 3); (3, 1)]).
Proof. split; vm_compute; reflexivity. Qed.

(** C7.  For an assignment of one column to each of the [n] rows (in
    particular for every permutation), the check the source posts, between
    consecutive rows only, accepts exactly the assignments in which no two
    markers of any two rows are at Chebyshev distance 1: two markers whose
    rows are more than one apart are at a distance larger than 1. *)
Theorem consecutive_check_is_pairwise (n : nat) (cols : list nat) :
  columns_distinct n cols ->
  (forall p q : cell,
     (1 < Z.abs (Z.of_nat p.1 - Z.of_nat q.1))%Z -> (1 < chebyshev p q)%Z) /\
  (consecutive_check cols <-> no_markers_touch cols).
Proof.
  intros (Hlen & _). split.
  - intros p q Hrows. unfold chebyshev. lia.
  - unfold consecutive_check. rewrite rule2_holds by done. apply consecutive_rows_touch.
Qed.

Lemma consecutive_check_is_pairwise_witness :
  (forall p q : cell,
     (1 < Z.abs (Z.of_nat p.1 - Z.of_nat q.1))%Z -> (1 < chebyshev p q)%Z) /\
  (consecutive_check [1; 3; 0; 2] <-> no_markers_touch [1; 3; 0; 2]).
Proof.
  apply (consecutive_check_is_pairwise 4 [1; 3; 0; 2]).
  split_and!; [reflexivity|repeat constructor; lia|compute_done].
Defined.

(** C8.  For every grid, [get_puzzle_regions] gives a mapping (each label one
    entry) from the labels of the grid to the list of the cells that carry
    the label, in the order of the grid, none empty; no cell is in two
    regions; the regions together are the cells of the grid, each once:
    [n * n] cells for an [n] by [n] grid.  The derivation is a function of
    the grid alone. *)
Theorem get_puzzle_regions_partition (m : matrix) :
  let regions := get_puzzle_regions m in
  NoDup regions.*1 /\
  (forall k, k ∈ regions.*1 <-> k ∈ labels m) /\
  (forall k cells, (k, cells) ∈ regions ->
     cells <> [] /\
     cells = filter (fun rc => label_at m rc = Some k) (all_cells m)) /\
  (forall k1 k2 cells1 cells2 rc,
     (k1, cells1) ∈ regions -> (k2, cells2) ∈ regions ->
     rc ∈ cells1 -> rc ∈ cells2 -> k1 = k2) /\
  mjoin (values regions) ≡ₚ all_cells m /\
  NoDup (mjoin (values regions)) /\
  (forall n, length m = n -> Forall (fun row => length row = n) m ->
     length (mjoin (values regions)) = n * n).
Proof. exact (regions_partition m). Qed.

Lemma get_puzzle_regions_partition_witness :
  length (mjoin (values (get_puzzle_regions board4))) = 4 * 4.
Proof.
  destruct (get_puzzle_regions_partition board4) as (_ & _ & _ & _ & _ & _ & Hsize).
  apply Hsize; [reflexivity|]. repeat constructor.
Defined.

(** C9.  For every valid board the run of [solve_puzzle] ends: the search
    space holds [n ^ n] assignments, every iteration of the loop takes one
    solution away from those still to be found, and a budget of [n ^ n]
    iterations is never used up.  It ends with a result when an assignment
    satisfies the rules, and by raising when none does. *)
Theorem solve_puzzle_terminates `{ChocoSolver} fs fuel path (m : matrix) t :
  valid_board m -> length m ^ length m <= fuel ->
  exists o evs,
    solve_puzzle fs fuel path (Some m) t = (o, t ++ evs) /\
    o <> OutOfFuel /\
    length evs <= length m ^ length m + 1 /\
    ((exists res, o = Returned res) <-> all_assignments m <> []) /\
    (o = Raised (AssertionError not_instantiated) <-> all_assignments m = []).
Proof.
  intros Hm Hfuel.
  pose proof (solve_puzzle_valid_board fs fuel path m t Hm) as Hrun.
  pose proof (length_all_assignments m) as Hbound.
  destruct (all_assignments m) as [|b others]; simpl in *.
  - eexists _, _. split; [exact Hrun|]. split_and!; [done|simpl; lia| |done].
    split; [by intros [? ?]|done].
  - rewrite decide_True in Hrun by lia. destruct Hrun as (first & _ & Hrun).
    eexists _, _. split; [exact Hrun|]. split_and!; [done| | |done].
    + cbn [length]. rewrite length_app, length_replicate. simpl. lia.
    + split; [done|eauto].
Qed.

Lemma solve_puzzle_terminates_witness :
  exists o evs,
    solve_puzzle no_files 4 None (Some board2) [] = (o, [] ++ evs) /\
    o <> OutOfFuel /\
    length evs <= 2 ^ 2 + 1 /\
    ((exists res, o = Returned res) <-> all_assignments board2 <> []) /\
    (o = Raised (AssertionError not_instantiated) <-> all_assignments board2 = []).
Proof.
  apply (solve_puzzle_terminates (H := LexSolver) no_files 4 None board2 []).
  - split; [simpl; lia|repeat constructor].
  - simpl. lia.
Defined.

(** C10.  Called with neither a path nor a matrix, [solve_puzzle] raises
    [ValueError] at once: nothing is read, no solver call is made, nothing is
    returned. *)
Theorem solve_puzzle_missing_arguments `{ChocoSolver} fs fuel t :
  solve_puzzle fs fuel None None t = (Raised (ValueError missing_argument), t).
Proof. reflexivity. Qed.

(** * Further properties of the code *)

(** A board of two rows of three cells: one row is wider than the board is
    high. *)
Definition board23 : matrix :=
  map (map LStr) [["a"; "a"; "a"]; ["a"; "a"; "a"]].



(** X2.  [solve_puzzle] raises [IndexError], before any solver call, exactly
    when some row of the matrix is wider than the matrix is high. *)
Theorem solve_puzzle_index_error `{ChocoSolver} fs fuel path (m : matrix) t :
  (exists row, row ∈ m /\ length m < length row) <->
  solve_puzzle fs fuel path (Some m) t = (Raised IndexError, t).
Proof.
  split.
  - intros (row & Hrow & Hlen). apply solve_puzzle_wide. unfold rows_fit.
    rewrite Forall_forall. intros Hfit. specialize (Hfit row Hrow). simpl in Hfit. lia.
  - intros Hrun. destruct (decide (rows_fit m)) as [Hfit|Hwide].
    + rewrite solve_puzzle_fit in Hrun by done. by apply search_raised in Hrun.
    + unfold rows_fit in Hwide. apply not_Forall_Exists in Hwide; [|apply _].
      apply Exists_exists in Hwide as (row & Hrow & Hlen). exists row.
      split; [done|]. simpl in Hlen. lia.
Qed.

(** The file is read only when no matrix is given, and solving a file
    is solving the rows parsed from it: the same outcome and the same solver
    calls, after the read. *)
Lemma solve_puzzle_of_file `{ChocoSolver} fs fuel path (rows : matrix) t t1 :
  parse_board_from_txt fs path t = (Returned rows, t1) ->
  solve_puzzle fs fuel (Some path) None t = solve_puzzle fs fuel None (Some rows) t1 /\
  forall m, solve_puzzle fs fuel (Some path) (Some m) t =
            solve_puzzle fs fuel None (Some m) t.
Proof.
  intros Hparse. split; [|done].
  rewrite !solve_puzzle_steps.
  erewrite (run_bind_returned _ _ t rows t1); [|exact Hparse].
  by erewrite (run_bind_returned _ _ t1 rows t1).
Qed.

Lemma solve_puzzle_of_file_witness :
  solve_puzzle (fun _ => Some text43) 10 (Some "p.txt") None [] =
  solve_puzzle (fun _ => Some text43) 10 None (Some board43) [EvReadText "p.txt"] /\
  forall m, solve_puzzle (fun _ => Some text43) 10 (Some "p.txt") (Some m) [] =
            solve_puzzle (fun _ => Some text43) 10 None (Some m) [].
Proof.
  apply (solve_puzzle_of_file (H := LexSolver) (fun _ => Some text43) 10 "p.txt"
           board43 [] [EvReadText "p.txt"]).
  vm_compute. reflexivity.
Defined.



(** X4.  The size [get_puzzle_size] computes from the text of a puzzle is
    the number of rows [parse_board_from_txt] reads from that text: both skip
    the blank lines, and stripping the whole text first changes nothing. *)
Theorem get_puzzle_size_text (text : string) :
  get_puzzle_size (PuzzleStr text) =
  get_puzzle_size (PuzzleMatrix (parse_rows (splitlines text))).
Proof.
  change (count_rows (splitlines_from "" (rstrip (lstrip text))) =
          length (parse_rows (splitlines_from "" text))).
  by rewrite length_parse_rows, count_rows_rstrip, count_rows_lstrip.
Qed.

(** X5.  Placing queens that are all different: when every queen is on a
    cell of the board, the board returned has the shape of the board given,
    the cells with a queen hold ["Q"] followed by what they held, as a
    string, and all other cells are unchanged; when some queen is off the
    board, [IndexError] is raised. *)
Theorem place_queens_spec (m : matrix) (queens : list cell) (t : trace) :
  NoDup queens ->
  (Forall (fun rc => is_Some (label_at m rc)) queens ->
   exists board_rows,
     place_queens m queens t = (Returned board_rows, t) /\
     length <$> board_rows = length <$> m /\
     forall rc, label_at board_rows rc =
       if decide (rc ∈ queens) then with_queen <$> label_at m rc
       else label_at m rc) /\
  ((exists rc, rc ∈ queens /\ label_at m rc = None) ->
   place_queens m queens t = (Raised IndexError, t)).
Proof.
  intros Hnd. split.
  - by apply place_queens_returned.
  - apply place_queens_raised.
Qed.

Lemma place_queens_spec_witness :
  place_queens board43 [(0, 1); (1, 3); (2, 0); (3, 2)] [] = (Raised IndexError, []).
Proof.
  apply (place_queens_spec board43 [(0, 1); (1, 3); (2, 0); (3, 2)] []).
  - compute_done.
  - exists (1, 3). split; [by right; left|reflexivity].
Defined.

(** X6.  The queens of a result returned for a valid board can always be
    placed: [IndexError] is not raised, the shape of the board is kept, and
    in every row exactly the cell at the column of the row's queen is
    marked. *)
Theorem solution_placed `{ChocoSolver} fs fuel path mx t res t' t2 :
  solve_puzzle fs fuel path mx t = (Returned res, t') ->
  valid_board (initial_board res) ->
  exists board_rows,
    place_queens (initial_board res) (queens res) t2 = (Returned board_rows, t2) /\
    length <$> board_rows = length <$> initial_board res /\
    forall r c, label_at board_rows (r, c) =
      if decide ((queens res).*2 !! r = Some c)
      then with_queen <$> label_at (initial_board res) (r, c)
      else label_at (initial_board res) (r, c).
Proof.
  intros Hrun Hm. destruct (solution_on_board _ _ _ _ _ _ _ Hrun Hm) as (Hnd & Hon & Hq).
  destruct (place_queens_returned (initial_board res) (queens res) t2 Hnd Hon)
    as (m' & Hplace & Hshape & Hcells).
  exists m'. split_and!; [done..|]. intros r c. rewrite Hcells.
  destruct (decide ((r, c) ∈ queens res)) as [Hin|Hnin].
  - by rewrite decide_True by (by apply Hq).
  - rewrite decide_False; [done|]. by intros ?%Hq.
Qed.

Lemma solution_placed_witness :
  exists board_rows,
    place_queens board4 [(0, 1); (1, 3); (2, 0); (3, 2)] [] = (Returned board_rows, []) /\
    length <$> board_rows = length <$> board4 /\
    forall r c, label_at board_rows (r, c) =
      if decide ([1; 3; 0; 2] !! r = Some c)
      then with_queen <$> label_at board4 (r, c)
      else label_at board4 (r, c).
Proof.
  apply (solution_placed (H := LexSolver) no_files 10 None (Some board4) []
           (mkResult 1 board4 [(0, 1); (1, 3); (2, 0); (3, 2)])
           [EvSolve true; EvSolve false] []).
  - vm_compute. reflexivity.
  - split; [simpl; lia|repeat constructor].
Defined.



(** X8.  When [compute_layout] returns, for a board with rows and columns,
    the edges fill the canvas between the borders in both directions: there
    is one edge more than cells, the first edge is the border [outer], the
    last one is [size - outer], and every cell, the grid line after it left
    out, is [base] or [base + 1] pixels wide, with [base] the usable width
    divided by the number of cells. *)
Theorem compute_layout_fills (nr nc size outer grid : Z) (x y : list Z) :
  (0 <= nr)%Z -> (0 <= nc)%Z ->
  compute_layout nr nc size outer grid = inr (x, y) ->
  fills size outer grid nc x /\ fills size outer grid nr y.
Proof.
  intros Hnr Hnc. unfold compute_layout.
  repeat case_decide; try done. intros [= <- <-].
  split; apply edges_fill; lia.
Qed.

Lemma compute_layout_fills_witness :
  fills 500 8 4 4 [8; 130; 252; 374; 492]%Z /\
  fills 500 8 4 2 [8; 252; 492]%Z.
Proof.
  apply (compute_layout_fills 2 4 500 8 4); [lia|lia|].
  vm_compute. reflexivity.
Defined.

(** X9.  With the sizes of the module (a canvas of 500 pixels, borders of
    8, grid lines of 4), for numbers of rows and columns that are not
    negative: [compute_layout] raises [ValueError] exactly when there are
    more than 121 rows or more than 121 columns; otherwise it raises
    [ZeroDivisionError] exactly when there is no column or no row; otherwise
    it returns edges that fill the canvas. *)
Theorem compute_layout_errors (nr nc : Z) :
  (0 <= nr)%Z -> (0 <= nc)%Z ->
  ((121 < nr \/ 121 < nc)%Z <->
   compute_layout nr nc CANVAS OUTER_W GRID_W = inl (Exn (ValueError too_thick))) /\
  ((nr <= 121 /\ nc <= 121 /\ (nc = 0 \/ nr = 0))%Z <->
   compute_layout nr nc CANVAS OUTER_W GRID_W = inl ZeroDivisionError) /\
  ((1 <= nr <= 121 /\ 1 <= nc <= 121)%Z <->
   exists x y, compute_layout nr nc CANVAS OUTER_W GRID_W = inr (x, y)).
Proof.
  intros Hnr Hnc. unfold compute_layout.
  change CANVAS with 500%Z. change OUTER_W with 8%Z. change GRID_W with 4%Z.
  replace (500 - 2 * 8 - (nc - 1) * 4)%Z with (488 - 4 * nc)%Z by lia.
  replace (500 - 2 * 8 - (nr - 1) * 4)%Z with (488 - 4 * nr)%Z by lia.
  repeat case_decide; split_and!; split; try done; try lia;
    try (by intros (? & ? & ?)); eauto.
Qed.

Lemma compute_layout_errors_witness :
  ((121 < 122 \/ 121 < 4)%Z <->
   compute_layout 122 4 CANVAS OUTER_W GRID_W = inl (Exn (ValueError too_thick))) /\
  ((122 <= 121 /\ 4 <= 121 /\ (4 = 0 \/ 122 = 0))%Z <->
   compute_layout 122 4 CANVAS OUTER_W GRID_W = inl ZeroDivisionError) /\
  ((1 <= 122 <= 121 /\ 1 <= 4 <= 121)%Z <->
   exists x y, compute_layout 122 4 CANVAS OUTER_W GRID_W = inr (x, y)).
Proof. apply (compute_layout_errors 122 4); lia. Defined.

(** X10.  A queen placed on a cell does not change the colour the drawing
    finds for it: the cell marked with ["Q"] is looked up under the same key
    as the cell itself. *)
Theorem queen_keeps_color (r c : nat) (raw_val : label) (hex : string) :
  color_hex r c (with_queen raw_val) = inr hex <-> color_hex r c raw_val = inr hex.
Proof.
  unfold color_hex. rewrite palette_key_with_queen.
  by destruct (PALETTE !! palette_key raw_val).
Qed.

(** X11.  Whenever [parse_board_from_txt] returns a board, the board has a
    row, its rows have one length, and every label is a string that is not
    empty and holds no comma. *)
Theorem parse_board_labels fs path t rows t' :
  parse_board_from_txt fs path t = (Returned rows, t') ->
  consistent_rows rows /\ Forall (Forall parsed_label) rows.
Proof.
  unfold parse_board_from_txt. intros Hrun.
  apply run_bind_returned_inv in Hrun as ([] & t1 & _ & Hrun).
  destruct (fs path) as [text|]; [|done].
  case_decide as Hlen; [done|]. injection Hrun as <- _. split.
  - apply distinct_row_lengths_one.
    by destruct (decide (distinct_row_lengths (parse_rows (splitlines text)) = 1)).
  - apply parse_rows_labels.
Qed.

Lemma parse_board_labels_witness :
  consistent_rows board43 /\ Forall (Forall parsed_label) board43.
Proof.
  apply (parse_board_labels (fun _ => Some text43) "p.txt" [] board43
           [EvReadText "p.txt"]).
  vm_compute. reflexivity.
Defined.



(** X13.  How [solve_puzzle] ends on a matrix that is not empty, the budget
    of the loop being large enough: with a result exactly when no row is
    wider than the matrix is high and some assignment satisfies the rules;
    with the failed assertion of [get_value], after one solver call, exactly
    when no row is too wide and no assignment satisfies the rules. *)
Theorem solve_puzzle_outcomes `{ChocoSolver} fs fuel path (m : matrix) t :
  m <> [] -> length (all_assignments m) <= fuel ->
  ((rows_fit m /\ all_assignments m <> []) <->
   exists res t', solve_puzzle fs fuel path (Some m) t = (Returned res, t')) /\
  ((rows_fit m /\ all_assignments m = []) <->
   solve_puzzle fs fuel path (Some m) t =
   (Raised (AssertionError not_instantiated), t ++ [EvSolve false])).
Proof.
  intros Hne Hfuel. destruct (decide (rows_fit m)) as [Hfit|Hwide].
  - rewrite solve_puzzle_fit by done.
    rewrite search_run by (simpl; destruct m; [done|simpl; lia]).
    pose proof (solutions_all_assignments_any m) as Hperm.
    destruct (solutions (board_model m)) as [|a rest] eqn:Hsol.
    + apply Permutation_nil_l in Hperm. rewrite <- Hperm. split.
      * split; [by intros [_ ?]|by intros (? & ? & ?)].
      * by split.
    + pose proof (Permutation_length Hperm) as Hlen. simpl in Hlen.
      rewrite decide_True by lia. split.
      * split; [eauto|]. intros _. split; [done|]. intros Hnil.
        rewrite Hnil in Hperm. by apply Permutation_nil_r in Hperm.
      * split; [|done]. intros [_ Hnil].
        rewrite Hnil in Hperm. by apply Permutation_nil_r in Hperm.
  - rewrite solve_puzzle_wide by done. split.
    + split; [by intros [? _]|by intros (? & ? & ?)].
    + split; [by intros [? _]|done].
Qed.

Lemma solve_puzzle_outcomes_witness :
  ((rows_fit board2 /\ all_assignments board2 <> []) <->
   exists res t', solve_puzzle no_files 10 None (Some board2) [] = (Returned res, t')) /\
  ((rows_fit board2 /\ all_assignments board2 = []) <->
   solve_puzzle no_files 10 None (Some board2) [] =
   (Raised (AssertionError not_instantiated), [] ++ [EvSolve false])).
Proof.
  apply (solve_puzzle_outcomes (H := LexSolver) no_files 10 None board2 []).
  - done.
  - vm_compute. lia.
Defined.
